(** * Scale and chord generator: the music-theory engine of [main.py]

    A shallow embedding of the pure part of [main.py]: the note table, the
    scale, chord-formula and progression tables, [is_consonant_chord],
    [generate_scale], [generate_chord], [generate_all_chords_for_scale],
    [generate_progression] and the slate that [create_midi_files] hands to
    [generate_progression]; then the tracks of [create_midi_for_chord],
    [create_midi_for_scale] and of a progression, and the script's loop
    over all notes and scale types.

    Python integers are [Z]; [%] with the positive modulus 12 is [Z.modulo].
    Python lists are [list]; note and table names are [string]. A dict
    literal is an association list in insertion order (the order
    [.items()] iterates in). Python exceptions are an explicit error
    result. *)

From Stdlib Require Import ZArith List String Bool Lia Permutation.
Import ListNotations.
Open Scope string_scope.
Open Scope list_scope.
Open Scope Z_scope.

(** ** Exceptions as results *)

Module Py.

(** The three exceptions the engine can raise. *)
Inductive exn : Type :=
| KeyError      (* [d[k]] with [k] not a key of the dict *)
| ValueError    (* [l.index(x)] with [x] not in the list *)
| IndexError.   (* [l[i]] with [i] out of range *)

Inductive result (A : Type) : Type :=
| OK (a : A)
| Raise (e : exn).
Arguments OK {A} a.
Arguments Raise {A} e.

Definition bind {A B : Type} (r : result A) (k : A -> result B) : result B :=
  match r with
  | OK a => k a
  | Raise e => Raise e
  end.

Definition raises {A : Type} (r : result A) : Prop :=
  exists e, r = Raise e.

(** [l[i]] on a list: a negative index counts from the end, and an index
    outside [-len(l), len(l)) raises [IndexError]. *)
Definition getitem {A : Type} (l : list A) (i : Z) : result A :=
  let n := Z.of_nat (List.length l) in
  let k := if i <? 0 then i + n else i in
  if (0 <=? k) && (k <? n)
  then match nth_error l (Z.to_nat k) with
       | Some x => OK x
       | None => Raise IndexError
       end
  else Raise IndexError.

(** [l.index(x)]: the first position holding [x], [ValueError] if none. *)
Fixpoint index_from (l : list string) (x : string) (pos : Z) : result Z :=
  match l with
  | [] => Raise ValueError
  | y :: l' => if String.eqb y x then OK pos else index_from l' x (pos + 1)
  end.

Definition index (l : list string) (x : string) : result Z :=
  index_from l x 0.

(** A dict with string keys, in insertion order. *)
Definition dict (V : Type) : Type := list (string * V).

(** [d[k]], [KeyError] when [k] is not a key. *)
Fixpoint lookup {V : Type} (d : dict V) (k : string) : result V :=
  match d with
  | [] => Raise KeyError
  | (k', v) :: d' => if String.eqb k' k then OK v else lookup d' k
  end.

Definition keys {V : Type} (d : dict V) : list string := map fst d.
Definition items {V : Type} (d : dict V) : list (string * V) := d.

(** [{x: i for i, x in enumerate(l)}], built left to right; a later
    occurrence of a key overwrites the value in place. *)
Fixpoint assign {V : Type} (d : dict V) (k : string) (v : V) : dict V :=
  match d with
  | [] => [(k, v)]
  | (k', v') :: d' =>
      if String.eqb k' k then (k', v) :: d' else (k', v') :: assign d' k v
  end.

Fixpoint enumerate_dict (l : list string) (i : Z) (d : dict Z) : dict Z :=
  match l with
  | [] => d
  | x :: l' => enumerate_dict l' (i + 1) (assign d x i)
  end.

End Py.

Import Py.

Notation "x <- r ;; k" := (Py.bind r (fun x => k))
  (at level 61, r at next level, right associativity).

(** ** The tables *)

Definition notes : list string :=
  ["C"; "C#"; "D"; "D#"; "E"; "F"; "F#"; "G"; "G#"; "A"; "A#"; "B"].

Definition note_to_midi : dict Z := enumerate_dict notes 0 [].

Definition scales : dict (list Z) :=
  [ ("major",          [2; 2; 1; 2; 2; 2; 1]);
    ("natural_minor",  [2; 1; 2; 2; 1; 2; 2]);
    ("harmonic_minor", [2; 1; 2; 2; 1; 3; 1]);
    ("melodic_minor",  [2; 1; 2; 2; 2; 2; 1]);
    ("dorian",         [2; 1; 2; 2; 2; 1; 2]);
    ("phrygian",       [1; 2; 2; 2; 1; 2; 2]);
    ("lydian",         [2; 2; 2; 1; 2; 2; 1]);
    ("mixolydian",     [2; 2; 1; 2; 2; 1; 2]);
    ("locrian",        [1; 2; 2; 1; 2; 2; 2]) ].

Definition chord_formulas : dict (list Z) :=
  [ ("major",        [0; 4; 7]);
    ("major6",       [0; 4; 7; 9]);
    ("major7",       [0; 4; 7; 11]);
    ("major9",       [0; 4; 7; 11; 14]);
    ("major11",      [0; 4; 7; 11; 14; 17]);
    ("major13",      [0; 4; 7; 11; 14; 17; 21]);
    ("minor",        [0; 3; 7]);
    ("minor6",       [0; 3; 7; 9]);
    ("minor7",       [0; 3; 7; 10]);
    ("minor9",       [0; 3; 7; 10; 14]);
    ("minor11",      [0; 3; 7; 10; 14; 17]);
    ("minor13",      [0; 3; 7; 10; 14; 17; 21]);
    ("dominant7",    [0; 4; 7; 10]);
    ("dominant9",    [0; 4; 7; 10; 14]);
    ("dominant11",   [0; 4; 7; 10; 14; 17]);
    ("dominant13",   [0; 4; 7; 10; 14; 17; 21]);
    ("augmented",    [0; 4; 8]);
    ("augmented7",   [0; 4; 8; 10]);
    ("augmented9",   [0; 4; 8; 10; 14]);
    ("diminished",   [0; 3; 6]);
    ("diminished7",  [0; 3; 6; 9]);
    ("sus2",         [0; 2; 7]);
    ("sus4",         [0; 5; 7]);
    ("7#5",          [0; 4; 8; 10]);
    ("7b5",          [0; 4; 6; 10]);
    ("7#9",          [0; 4; 7; 10; 15]);
    ("7b9",          [0; 4; 7; 10; 13]);
    ("add9",         [0; 4; 7; 14]);
    ("major7#11",    [0; 4; 7; 11; 18]);
    ("minor_major7", [0; 3; 7; 11]) ].

Definition progressions : dict (list Z) :=
  [ ("I-V-ii-IV",            [0; 4; 1; 3]);
    ("12-bar-blues",         [0; 0; 0; 0; 3; 3; 0; 0; 4; 3; 0; 0]);
    ("I-IV-I-V-IV-I",        [0; 3; 0; 4; 3; 0]);
    ("iii-vi-ii-V",          [2; 5; 1; 4]);
    ("I-vi-ii-V",            [0; 5; 1; 4]);
    ("I-vi-ii-V-I",          [0; 5; 1; 4; 0]);
    ("I-V-vi-iii-IV-I-IV-V", [0; 4; 5; 2; 3; 0; 3; 4]);
    ("I-IV-V",               [0; 3; 4]);
    ("I-bVII-IV",            [0; 10; 3]);
    ("I-V-vi-iii-IV-I-ii-V", [0; 4; 5; 2; 3; 0; 1; 4]);
    ("ii-V-I",               [1; 4; 0]);
    ("I-ii-IV-V",            [0; 1; 3; 4]);
    ("ii-V-I-vi",            [1; 4; 0; 5]);
    ("i-bVI-bVII",           [0; 8; 10]);
    ("i-bVII-bVI-VII",       [0; 10; 8; 11]);
    ("i-iv-v",               [0; 3; 7]);
    ("I-IV-vi-V",            [0; 3; 5; 4]);
    ("I-V-IV-I",             [0; 4; 3; 0]);
    ("vi-IV-I-V",            [5; 3; 0; 4]);
    ("I-IV-I-V",             [0; 3; 0; 4]);
    ("I-V-IV",               [0; 4; 3]);
    ("I-IV-V-IV",            [0; 3; 4; 3]);
    ("I-IV-V-I",             [0; 3; 4; 0]);
    ("I-vi-IV-V",            [0; 5; 3; 4]) ].

(** ** The functions *)

(** [is_consonant_chord]: the outer loop takes [chord[i]], the inner loop
    runs over the positions after [i]; the first interval outside the list
    returns [False]. *)
Definition consonant_intervals : list Z := [0; 3; 4; 7; 8; 9; 12].

Definition interval_in (ci cj : Z) : bool :=
  existsb (Z.eqb ((cj - ci) mod 12)) consonant_intervals.

Fixpoint consonant_from (ci : Z) (later : list Z) : bool :=
  match later with
  | [] => true
  | cj :: later' => if interval_in ci cj then consonant_from ci later' else false
  end.

Fixpoint is_consonant_chord (chord : list Z) : bool :=
  match chord with
  | [] => true
  | ci :: later =>
      if consonant_from ci later then is_consonant_chord later else false
  end.

(** [generate_scale]: the table lookup comes first, then [notes.index],
    then the loop over the step sizes, which appends to [scale]. *)
Fixpoint scale_loop (current_note : Z) (scale_intervals : list Z)
    (scale : list string) : result (list string) :=
  match scale_intervals with
  | [] => OK scale
  | interval :: rest =>
      let current_note := (current_note + interval) mod 12 in
      n <- getitem notes current_note ;;
      scale_loop current_note rest (scale ++ [n])
  end.

Definition generate_scale (root scale_type : string) : result (list string) :=
  scale_intervals <- lookup scales scale_type ;;
  current_note <- index notes root ;;
  scale_loop current_note scale_intervals [root].

(** [generate_chord]: [formula] is the list of offsets itself. *)
Definition generate_chord (root : string) (formula : list Z)
  : result (list Z) :=
  root_index <- index notes root ;;
  OK (map (fun interval => (root_index + interval) mod 12) formula).

(** [generate_all_chords_for_scale]: roots in the outer loop, formulas in
    the inner loop, each triple appended to [all_chords]. *)
Definition chord_entry : Type := (string * string * list Z)%type.

Fixpoint formulas_loop (root : string) (its : list (string * list Z))
    (all_chords : list chord_entry) : result (list chord_entry) :=
  match its with
  | [] => OK all_chords
  | (chord_name, formula) :: rest =>
      chord <- generate_chord root formula ;;
      formulas_loop root rest (all_chords ++ [(root, chord_name, chord)])
  end.

Fixpoint roots_loop (scale : list string) (all_chords : list chord_entry)
  : result (list chord_entry) :=
  match scale with
  | [] => OK all_chords
  | root :: rest =>
      all_chords' <- formulas_loop root (items chord_formulas) all_chords ;;
      roots_loop rest all_chords'
  end.

Definition generate_all_chords_for_scale (scale : list string)
  : result (list chord_entry) :=
  roots_loop scale [].

(** [generate_progression]: [[chords[i] for i in progression_pattern]]. *)
Fixpoint generate_progression {A : Type} (chords : list A)
    (progression_pattern : list Z) : result (list A) :=
  match progression_pattern with
  | [] => OK []
  | i :: rest =>
      c <- getitem chords i ;;
      cs <- generate_progression chords rest ;;
      OK (c :: cs)
  end.

(** The pure part of [create_midi_files]: the slate is
    [[chord for _, _, chord in all_chords[:7]]], and the loop over
    [progressions.items()] builds one progression per pattern; the first
    exception ends the run. Writing and converting the files is left out. *)
Definition entry_chord (e : chord_entry) : list Z := snd e.
Definition entry_root (e : chord_entry) : string := fst (fst e).
Definition entry_name (e : chord_entry) : string := snd (fst e).

Definition slate_of (all_chords : list chord_entry) : list (list Z) :=
  map entry_chord (firstn 7 all_chords).

Fixpoint progressions_loop (slate : list (list Z))
    (its : list (string * list Z)) : result (list (string * list (list Z))) :=
  match its with
  | [] => OK []
  | (progression_name, pattern) :: rest =>
      progression <- generate_progression slate pattern ;;
      others <- progressions_loop slate rest ;;
      OK ((progression_name, progression) :: others)
  end.

(** What one call of [create_midi_files] hands to the MIDI writer: the
    scale, the chords that pass [is_consonant_chord], and one progression
    per registered pattern. *)
Record rendered : Type := {
  rendered_scale : list string;
  rendered_chords : list chord_entry;
  rendered_progressions : list (string * list (list Z))
}.

Definition create_midi_files (root_note scale_type : string)
  : result rendered :=
  scale <- generate_scale root_note scale_type ;;
  all_chords <- generate_all_chords_for_scale scale ;;
  let consonant :=
    filter (fun e => is_consonant_chord (entry_chord e)) all_chords in
  progs <- progressions_loop (slate_of all_chords) (items progressions) ;;
  OK {| rendered_scale := scale;
        rendered_chords := consonant;
        rendered_progressions := progs |}.

(** Reference functions used in the statements: the note at a pitch class,
    and the cursor values the scale loop goes through. *)
Definition note_at (p : Z) : string := nth (Z.to_nat p) notes "".

Fixpoint cursors (current_note : Z) (scale_intervals : list Z) : list Z :=
  match scale_intervals with
  | [] => []
  | interval :: rest =>
      let c := (current_note + interval) mod 12 in c :: cursors c rest
  end.

Definition total (l : list Z) : Z := fold_right Z.add 0 l.

(** The pitch class of a note name ([0] stands in when the name is not in
    the table; the statements below use it on table names only). *)
Definition pitch_class (n : string) : Z :=
  match index notes n with
  | OK p => p
  | Raise _ => 0
  end.

(** The chord on a pitch class, and the entries [generate_all_chords_for_scale]
    appends for one root: one per registered formula, in table order. *)
Definition chord_at (p : Z) (formula : list Z) : list Z :=
  map (fun interval => (p + interval) mod 12) formula.

Definition entries_on (its : list (string * list Z)) (root : string)
  : list chord_entry :=
  map (fun it => (root, fst it, chord_at (pitch_class root) (snd it))) its.

(** No key is written twice in a dict literal (checked on the tables
    of this file, so that the first binding found is the only one). *)
Fixpoint distinctb (l : list string) : bool :=
  match l with
  | [] => true
  | x :: rest => negb (existsb (String.eqb x) rest) && distinctb rest
  end.

(** ** MIDI tracks

    A [mido.Message] is recorded as the arguments [main.py] passes to it;
    what mido does with them (its own checks, the file format, [save]) is
    outside this file. A track is the list of messages appended to it.
    mido accepts a note number in 0..127 and raises [ValueError] outside
    it; the tracks below are the ones built when every tone satisfies
    [midi_tone], and the statements on them are made for such tones. *)
Inductive msg_type : Type := note_on | note_off.

Definition midi_tone (tone : Z) : Prop := 0 <= tone + 60 <= 127.

Record Message : Type := {
  msg_type_of : msg_type;
  msg_note : Z;
  msg_velocity : Z;
  msg_time : Z
}.

(** [create_midi_for_chord]: the track saved under [filename]. *)
Fixpoint chord_track_loop (chord : list Z) (track : list Message)
  : list Message :=
  match chord with
  | [] => track
  | note :: rest =>
      let midi_note := note + 60 in
      let track := track ++ [Build_Message note_on midi_note 64 0] in
      let track := track ++ [Build_Message note_off midi_note 64 480] in
      chord_track_loop rest track
  end.

Definition create_midi_for_chord (chord : list Z) : list Message :=
  chord_track_loop chord [].

(** [create_midi_for_scale]: as for a chord, with the note number read from
    [note_to_midi]. *)
Fixpoint scale_track_loop (scale : list string) (track : list Message)
  : result (list Message) :=
  match scale with
  | [] => OK track
  | note :: rest =>
      n <- lookup note_to_midi note ;;
      let midi_note := n + 60 in
      let track := track ++ [Build_Message note_on midi_note 64 0] in
      let track := track ++ [Build_Message note_off midi_note 64 480] in
      scale_track_loop rest track
  end.

Definition create_midi_for_scale (scale : list string)
  : result (list Message) :=
  scale_track_loop scale [].

(** The track [create_midi_files] builds for one progression: the notes of
    its chords, chord after chord. *)
Fixpoint progression_track_loop (progression : list (list Z))
    (track : list Message) : list Message :=
  match progression with
  | [] => track
  | chord :: rest => progression_track_loop rest (chord_track_loop chord track)
  end.

Definition progression_track (progression : list (list Z)) : list Message :=
  progression_track_loop progression [].

(** The loops at the end of the script: every note, every scale type. *)
Fixpoint scale_types_loop (note : string) (scale_types : list string)
  : result (list rendered) :=
  match scale_types with
  | [] => OK []
  | scale_type :: rest =>
      r <- create_midi_files note scale_type ;;
      rs <- scale_types_loop note rest ;;
      OK (r :: rs)
  end.

Fixpoint notes_loop (ns : list string) : result (list rendered) :=
  match ns with
  | [] => OK []
  | note :: rest =>
      rs <- scale_types_loop note (keys scales) ;;
      rs' <- notes_loop rest ;;
      OK (rs ++ rs')
  end.

Definition main : result (list rendered) := notes_loop notes.

(** Reference functions for the statements on tracks and chords. *)
Definition note_messages (midi_note : Z) : list Message :=
  [Build_Message note_on midi_note 64 0; Build_Message note_off midi_note 64 480].

Definition duration (track : list Message) : Z :=
  fold_right (fun m acc => msg_time m + acc) 0 track.

(** Whether some tone of the chord followed upwards by some tone of the
    chord gives, modulo 12, an interval of the list [ds]. *)
Definition has_interval (ds : list Z) (chord : list Z) : bool :=
  existsb (fun x =>
             existsb (fun y => existsb (Z.eqb ((y - x) mod 12)) ds) chord)
    chord.

(** The tones of the chord that have another tone of the chord a fifth
    above them, and the chord reordered with those tones first. *)
Definition below_a_fifth (chord : list Z) (x : Z) : bool :=
  existsb (fun y => (y - x) mod 12 =? 7) chord.

Definition fifths_upward (chord : list Z) : list Z :=
  filter (below_a_fifth chord) chord
  ++ filter (fun x => negb (below_a_fifth chord x)) chord.

(** An index [l[i]] rejects. *)
Definition out_of_range {A : Type} (l : list A) (i : Z) : Prop :=
  i < - Z.of_nat (List.length l) \/ Z.of_nat (List.length l) <= i.

Definition consonant_entry (e : chord_entry) : bool :=
  is_consonant_chord (entry_chord e).

Fixpoint distinct_values (l : list Z) : bool :=
  match l with
  | [] => true
  | x :: rest => negb (existsb (Z.eqb x) rest) && distinct_values rest
  end.

(** * Lemmas on the Python operations *)

Section ListOps.

Context {A : Type}.
Implicit Types (l : list A) (i : Z) (x : A).

Lemma getitem_nonneg l i x :
  0 <= i ->
  getitem l i = OK x <-> nth_error l (Z.to_nat i) = Some x.
Proof.
  intros Hi. unfold getitem.
  destruct (Z.ltb_spec i 0) as [?|_]; [lia|].
  destruct (Z.leb_spec 0 i) as [_|?]; [|lia]. cbn [andb].
  destruct (Z.ltb_spec i (Z.of_nat (List.length l))) as [Hlt|Hge].
  - destruct (nth_error l (Z.to_nat i)) eqn:E.
    + split; congruence.
    + apply nth_error_None in E. lia.
  - split; [discriminate|]. intros E.
    assert (nth_error l (Z.to_nat i) <> None) as N by congruence.
    apply nth_error_Some in N. lia.
Qed.

Lemma getitem_negative l i x :
  i < 0 ->
  getitem l i = OK x <->
  nth_error l (Z.to_nat (i + Z.of_nat (List.length l))) = Some x
  /\ - Z.of_nat (List.length l) <= i.
Proof.
  intros Hi. unfold getitem.
  destruct (Z.ltb_spec i 0) as [_|?]; [|lia].
  set (n := Z.of_nat (List.length l)).
  destruct (Z.leb_spec 0 (i + n)) as [Hle|Hgt]; cbn [andb].
  - destruct (Z.ltb_spec (i + n) n) as [_|?]; [|lia].
    destruct (nth_error l (Z.to_nat (i + n))) eqn:E.
    + split; [intros [= ->]; split; [reflexivity|lia] | intros [[= ->] _]; reflexivity].
    + apply nth_error_None in E. lia.
  - split; [discriminate | intros [_ ?]; lia].
Qed.

(** [l[i]] raises exactly outside [-len(l), len(l)), and then it is
    [IndexError]. *)
Lemma getitem_raises l i :
  raises (getitem l i) <->
  i < - Z.of_nat (List.length l) \/ Z.of_nat (List.length l) <= i.
Proof.
  unfold raises, getitem.
  set (n := Z.of_nat (List.length l)).
  destruct (Z.ltb_spec i 0) as [Hneg|Hpos].
  - destruct (Z.leb_spec 0 (i + n)) as [Hle|Hgt]; cbn [andb].
    + destruct (Z.ltb_spec (i + n) n) as [_|?]; [|lia].
      destruct (nth_error l (Z.to_nat (i + n))) eqn:E.
      * split; [intros [e He]; discriminate | lia].
      * apply nth_error_None in E. lia.
    + split; [lia | eauto].
  - destruct (Z.leb_spec 0 i) as [_|?]; [|lia]. cbn [andb].
    destruct (Z.ltb_spec i n) as [Hlt|Hge].
    + destruct (nth_error l (Z.to_nat i)) eqn:E.
      * split; [intros [e He]; discriminate | lia].
      * apply nth_error_None in E. lia.
    + split; [lia | eauto].
Qed.

Lemma getitem_error l i e : getitem l i = Raise e -> e = IndexError.
Proof.
  unfold getitem.
  destruct (_ && _); [destruct (nth_error _ _)|]; congruence.
Qed.

End ListOps.

Lemma lookup_In {V : Type} (d : dict V) (k : string) (v : V) :
  lookup d k = OK v -> In (k, v) d.
Proof.
  induction d as [|[k' v'] d IH]; cbn; [discriminate|].
  destruct (String.eqb_spec k' k) as [->|_].
  - intros [= ->]. now left.
  - intros H. right. now apply IH.
Qed.

Lemma lookup_not_key {V : Type} (d : dict V) (k : string) :
  ~ In k (keys d) <-> lookup d k = Raise KeyError.
Proof.
  induction d as [|[k' v'] d IH]; cbn.
  - tauto.
  - destruct (String.eqb_spec k' k) as [->|Hne].
    + split; [tauto | discriminate].
    + rewrite <- IH. tauto.
Qed.

Lemma index_from_not_in (l : list string) (x : string) (pos : Z) :
  ~ In x l <-> index_from l x pos = Raise ValueError.
Proof.
  revert pos. induction l as [|y l IH]; intros pos; cbn.
  - tauto.
  - destruct (String.eqb_spec y x) as [->|Hne].
    + split; [tauto | discriminate].
    + rewrite <- IH. tauto.
Qed.

Lemma index_from_sound (l : list string) (x : string) (pos p : Z) :
  index_from l x pos = OK p ->
  pos <= p < pos + Z.of_nat (List.length l)
  /\ nth_error l (Z.to_nat (p - pos)) = Some x.
Proof.
  revert pos. induction l as [|y l IH]; intros pos; cbn [index_from].
  - discriminate.
  - destruct (String.eqb_spec y x) as [->|Hne].
    + intros [= ->]. rewrite Z.sub_diag. cbn. split; [lia|reflexivity].
    + intros H. apply IH in H as [Hr Hn]. cbn [List.length]. split; [lia|].
      replace (Z.to_nat (p - pos)) with (S (Z.to_nat (p - (pos + 1)))) by lia.
      exact Hn.
Qed.

(** In a list without repetition, [index] finds the position asked for. *)
Lemma index_from_complete (l : list string) (x : string) (pos : Z) (k : nat) :
  NoDup l -> nth_error l k = Some x ->
  index_from l x pos = OK (pos + Z.of_nat k).
Proof.
  intros ND. revert pos k.
  induction ND as [|y l Hy ND IH]; intros pos k Hk.
  - destruct k; discriminate.
  - cbn [index_from]. destruct k as [|k]; cbn in Hk.
    + injection Hk as ->. rewrite String.eqb_refl. f_equal. lia.
    + destruct (String.eqb_spec y x) as [->|_].
      * exfalso. apply Hy. eapply nth_error_In; eassumption.
      * rewrite (IH (pos + 1) k Hk). f_equal. lia.
Qed.

(** * The note table *)

Lemma distinctb_NoDup (l : list string) : distinctb l = true -> NoDup l.
Proof.
  induction l as [|x rest IH]; cbn; [constructor|].
  rewrite andb_true_iff, negb_true_iff. intros [Hx Hrest].
  constructor; [|now apply IH].
  intros Hin. apply not_true_iff_false in Hx. apply Hx.
  apply existsb_exists. exists x. split; [assumption|apply String.eqb_refl].
Qed.

Lemma notes_NoDup : NoDup notes.
Proof. apply distinctb_NoDup. reflexivity. Qed.

Lemma tables_keys_NoDup :
  NoDup (keys scales) /\ NoDup (keys chord_formulas)
  /\ NoDup (keys progressions).
Proof. repeat split; apply distinctb_NoDup; reflexivity. Qed.

Lemma notes_length : List.length notes = 12%nat.
Proof. reflexivity. Qed.

Lemma note_at_nth_error (p : Z) :
  0 <= p < 12 -> nth_error notes (Z.to_nat p) = Some (note_at p).
Proof.
  intros Hp. unfold note_at. apply nth_error_nth'.
  rewrite notes_length. lia.
Qed.

Lemma getitem_notes (p : Z) :
  0 <= p < 12 -> getitem notes p = OK (note_at p).
Proof.
  intros Hp. apply getitem_nonneg; [lia|]. now apply note_at_nth_error.
Qed.

Lemma index_note_at (p : Z) :
  0 <= p < 12 -> index notes (note_at p) = OK p.
Proof.
  intros Hp. unfold index.
  rewrite (index_from_complete notes (note_at p) 0 (Z.to_nat p) notes_NoDup
             (note_at_nth_error p Hp)).
  f_equal. lia.
Qed.

Lemma index_notes_In (n : string) :
  In n notes -> exists p, index notes n = OK p /\ 0 <= p < 12 /\ note_at p = n.
Proof.
  intros Hin. destruct (index notes n) as [p|e] eqn:E.
  - exists p. apply index_from_sound in E as [Hr Hn].
    rewrite notes_length in Hr. rewrite Z.sub_0_r in Hn.
    repeat split; try lia.
    unfold note_at. now apply nth_error_nth.
  - exfalso. unfold index in E.
    assert (e = ValueError) as ->.
    { clear Hin. revert E. generalize 0. induction notes as [|y l IH]; cbn.
      - congruence.
      - intros z. destruct (String.eqb y n); [discriminate|apply IH]. }
    now apply index_from_not_in in E.
Qed.

(** The dict [note_to_midi] agrees with [notes.index]. *)
Lemma note_to_midi_index (n : string) :
  In n notes -> lookup note_to_midi n = index notes n.
Proof.
  cbn. intros H.
  repeat (destruct H as [<-|H]; [reflexivity|]). contradiction.
Qed.

(** * Scales *)

Lemma scale_loop_cursors (scale_intervals : list Z) :
  forall (current_note : Z) (scale : list string),
    scale_loop current_note scale_intervals scale
    = OK (scale ++ map note_at (cursors current_note scale_intervals)).
Proof.
  induction scale_intervals as [|interval rest IH]; intros cur scale.
  - cbn. now rewrite app_nil_r.
  - cbn [scale_loop cursors map].
    rewrite getitem_notes by (apply Z.mod_pos_bound; lia).
    cbn [bind]. rewrite IH, <- app_assoc. reflexivity.
Qed.

Lemma cursors_length (steps : list Z) :
  forall cur, List.length (cursors cur steps) = List.length steps.
Proof.
  induction steps as [|s rest IH]; intros cur; cbn; [|rewrite IH]; reflexivity.
Qed.

(** The cursor after [k + 1] steps is the start plus the first [k + 1] step
    sizes, modulo 12. *)
Lemma cursors_nth (steps : list Z) :
  forall (cur : Z) (k : nat),
    (k < List.length steps)%nat ->
    nth_error (cursors cur steps) k
    = Some ((cur + total (firstn (S k) steps)) mod 12).
Proof.
  induction steps as [|s rest IH]; intros cur k Hk; cbn in Hk; [lia|].
  destruct k as [|k].
  - cbn. do 2 f_equal. destruct rest; cbn; lia.
  - cbn [cursors nth_error]. rewrite IH by lia.
    change (firstn (S (S k)) (s :: rest)) with (s :: firstn (S k) rest).
    cbn [total fold_right]. fold (total (firstn (S k) rest)).
    rewrite Z.add_mod_idemp_l by lia. do 2 f_equal. lia.
Qed.

Lemma total_firstn_succ (steps : list Z) :
  forall (k : nat) (step : Z),
    nth_error steps k = Some step ->
    total (firstn (S k) steps) = total (firstn k steps) + step.
Proof.
  induction steps as [|s rest IH]; intros k step Hk.
  - destruct k; discriminate.
  - destruct k as [|k].
    + cbn in *. injection Hk as ->. lia.
    + change (firstn (S (S k)) (s :: rest)) with (s :: firstn (S k) rest).
      change (firstn (S k) (s :: rest)) with (s :: firstn k rest).
      cbn [total fold_right]. fold (total (firstn (S k) rest)).
      fold (total (firstn k rest)).
      rewrite (IH k step Hk). lia.
Qed.

(** Every registered scale has seven steps that add up to an octave. *)
Lemma scales_well_formed :
  Forall (fun e => List.length (snd e) = 7%nat /\ total (snd e) = 12) scales.
Proof. repeat constructor. Qed.

(** The scale is the root followed by the notes at the cursor values. *)
Lemma generate_scale_unfold (root scale_type : string) (steps : list Z) (p : Z) :
  lookup scales scale_type = OK steps ->
  index notes root = OK p ->
  generate_scale root scale_type = OK (root :: map note_at (cursors p steps)).
Proof.
  intros Hs Hp. unfold generate_scale. rewrite Hs, Hp. cbn [bind].
  now rewrite scale_loop_cursors.
Qed.

(** Position [k] of the scale holds the note at the root's pitch class plus
    the first [k] steps. *)
Lemma scale_entry (root : string) (steps : list Z) (p : Z) (k : nat) :
  0 <= p < 12 -> note_at p = root -> (k <= List.length steps)%nat ->
  nth_error (root :: map note_at (cursors p steps)) k
  = Some (note_at ((p + total (firstn k steps)) mod 12)).
Proof.
  intros Hp Hr Hk. destruct k as [|k].
  - cbn [nth_error firstn total fold_right].
    rewrite Z.add_0_r, Z.mod_small by lia. now rewrite Hr.
  - cbn [nth_error]. rewrite nth_error_map, cursors_nth by lia. reflexivity.
Qed.

(** C1. For a root among the twelve note names and a registered scale type,
    [generate_scale] returns a scale of exactly 8 entries; entry 0 is the
    root and entry 7 is the root's name again; and for each step [k] of the
    scale's step list, entry [k + 1] is the note whose pitch class is the
    pitch class of entry [k] advanced by that step modulo 12. *)
Theorem generate_scale_octave_closure
    (root scale_type : string) (steps : list Z) :
  In root notes ->
  lookup scales scale_type = OK steps ->
  exists scale,
    generate_scale root scale_type = OK scale
    /\ List.length scale = 8%nat
    /\ nth_error scale 0 = Some root
    /\ nth_error scale 7 = Some root
    /\ forall (k : nat) (step : Z),
         nth_error steps k = Some step ->
         exists a b p,
           nth_error scale k = Some a
           /\ nth_error scale (S k) = Some b
           /\ index notes a = OK p
           /\ index notes b = OK ((p + step) mod 12).
Proof.
  intros Hroot Hsteps.
  destruct (index_notes_In root Hroot) as (p & Hidx & Hp & Hat).
  pose proof (lookup_In _ _ _ Hsteps) as Hin.
  pose proof scales_well_formed as WF.
  rewrite Forall_forall in WF. destruct (WF _ Hin) as [Hlen Htot].
  cbn [snd] in Hlen, Htot.
  exists (root :: map note_at (cursors p steps)).
  split; [now apply generate_scale_unfold|].
  split; [cbn [List.length]; now rewrite length_map, cursors_length, Hlen|].
  split; [reflexivity|].
  split.
  - rewrite (scale_entry root steps p 7 Hp Hat) by lia.
    rewrite firstn_all2 by lia. rewrite Htot.
    replace (p + 12) with (p + 1 * 12) by lia.
    rewrite Z.mod_add, Z.mod_small by lia. now rewrite Hat.
  - intros k step Hk.
    assert (k < List.length steps)%nat as Hlt
        by (apply nth_error_Some; congruence).
    exists (note_at ((p + total (firstn k steps)) mod 12)),
           (note_at ((p + total (firstn (S k) steps)) mod 12)),
           ((p + total (firstn k steps)) mod 12).
    split; [apply scale_entry; auto; lia|].
    split; [apply scale_entry; auto; lia|].
    split; [apply index_note_at, Z.mod_pos_bound; lia|].
    rewrite Z.add_mod_idemp_l by lia.
    rewrite (total_firstn_succ steps k step Hk), Z.add_assoc.
    apply index_note_at, Z.mod_pos_bound. lia.
Qed.

Lemma generate_scale_octave_closure_witness :
  exists scale,
    generate_scale "A" "harmonic_minor" = OK scale
    /\ List.length scale = 8%nat
    /\ nth_error scale 0 = Some "A"
    /\ nth_error scale 7 = Some "A"
    /\ forall (k : nat) (step : Z),
         nth_error [2; 1; 2; 2; 1; 3; 1] k = Some step ->
         exists a b p,
           nth_error scale k = Some a
           /\ nth_error scale (S k) = Some b
           /\ index notes a = OK p
           /\ index notes b = OK ((p + step) mod 12).
Proof.
  apply (generate_scale_octave_closure "A" "harmonic_minor").
  - cbn. tauto.
  - reflexivity.
Defined.

(** C9. The name at each pitch class and the pitch class of each name are
    inverse to each other: for a name [n] of the table, [notes.index(n)]
    (and [note_to_midi[n]]) is a pitch class in [0, 12) at which the table
    holds [n]; for a pitch class [p] in [0, 12), [notes[p]] is a name of the
    table whose index (and [note_to_midi] value) is [p]. *)
Theorem note_pitch_class_roundtrip (n : string) (p : Z) :
  In n notes ->
  0 <= p < 12 ->
  (exists q, index notes n = OK q
             /\ lookup note_to_midi n = OK q
             /\ 0 <= q < 12
             /\ getitem notes q = OK n)
  /\ (exists m, getitem notes p = OK m
                /\ In m notes
                /\ index notes m = OK p
                /\ lookup note_to_midi m = OK p).
Proof.
  intros Hn Hp. split.
  - destruct (index_notes_In n Hn) as (q & Hidx & Hq & Hat).
    exists q. rewrite note_to_midi_index by assumption.
    repeat split; try assumption; try lia.
    rewrite getitem_notes by assumption. now rewrite Hat.
  - exists (note_at p).
    assert (In (note_at p) notes) as Hin
        by (eapply nth_error_In, note_at_nth_error; eassumption).
    rewrite note_to_midi_index by assumption.
    repeat split; auto using getitem_notes, index_note_at.
Qed.

Lemma note_pitch_class_roundtrip_witness :
  (exists q, index notes "G" = OK q
             /\ lookup note_to_midi "G" = OK q
             /\ 0 <= q < 12
             /\ getitem notes q = OK "G")
  /\ (exists m, getitem notes 10 = OK m
                /\ In m notes
                /\ index notes m = OK 10
                /\ lookup note_to_midi m = OK 10).
Proof.
  apply (note_pitch_class_roundtrip "G" 10).
  - cbn. tauto.
  - lia.
Defined.

(** C10, as the code has it. An unregistered scale type raises [KeyError]
    whatever the root is, because the scale table is read first; a root
    that is not a note name raises [ValueError] when the scale type is
    registered. Either way the call returns the exception, not a scale. *)
Theorem generate_scale_errors (root scale_type : string) :
  (~ In scale_type (keys scales) ->
   generate_scale root scale_type = Raise KeyError)
  /\ (In scale_type (keys scales) -> ~ In root notes ->
      generate_scale root scale_type = Raise ValueError).
Proof.
  unfold generate_scale. split.
  - intros Hk. apply lookup_not_key in Hk. now rewrite Hk.
  - intros Hk Hr. destruct (lookup scales scale_type) as [steps|e] eqn:E.
    + cbn [bind]. apply (index_from_not_in notes root 0) in Hr.
      unfold index. now rewrite Hr.
    + exfalso. revert Hk.
      assert (e = KeyError) as ->.
      { clear -E. induction scales as [|[k v] d IH]; cbn in E.
        - congruence.
        - destruct (String.eqb k scale_type); [discriminate|auto]. }
      now apply lookup_not_key.
Qed.

Lemma generate_scale_errors_witness :
  generate_scale "C" "blues" = Raise KeyError
  /\ generate_scale "H" "major" = Raise ValueError.
Proof.
  split.
  - apply (proj1 (generate_scale_errors "C" "blues")).
    cbn. intuition discriminate.
  - apply (proj2 (generate_scale_errors "H" "major")).
    + cbn. tauto.
    + cbn. intuition discriminate.
Defined.

(** C10 as stated fails: with a root that is not a note name and an
    unregistered scale type, the exception is [KeyError], not the one for
    the unknown note name. *)
Lemma generate_scale_unknown_root_and_type :
  ~ In "H" notes
  /\ generate_scale "H" "blues" = Raise KeyError
  /\ generate_scale "H" "blues" <> Raise ValueError.
Proof.
  split; [cbn; intuition discriminate|].
  split; [reflexivity|discriminate].
Qed.

(** * Consonance *)

Section Consonance.

Implicit Types (chord later : list Z) (a b x y : Z).

Lemma consonant_from_forallb x later :
  consonant_from x later = forallb (interval_in x) later.
Proof.
  induction later as [|y later IH]; cbn; [reflexivity|].
  rewrite IH. now destruct (interval_in x y).
Qed.

Lemma is_consonant_chord_cons x later :
  is_consonant_chord (x :: later)
  = forallb (interval_in x) later && is_consonant_chord later.
Proof.
  cbn [is_consonant_chord]. rewrite consonant_from_forallb.
  now destruct (forallb _ _).
Qed.

(** Membership in the literal list, after the reduction modulo 12: the
    entry 12 is never hit. *)
Lemma interval_in_spec a b :
  interval_in a b = true <-> In ((b - a) mod 12) [0; 3; 4; 7; 8; 9].
Proof.
  unfold interval_in, consonant_intervals.
  pose proof (Z.mod_pos_bound (b - a) 12 ltac:(lia)) as Hb.
  rewrite existsb_exists. split.
  - intros (d & Hd & He). apply Z.eqb_eq in He. subst d.
    cbn in Hd |- *. lia.
  - intros Hin. exists ((b - a) mod 12). split; [|apply Z.eqb_refl].
    cbn in Hin |- *. lia.
Qed.

Lemma is_consonant_chord_pairs chord :
  is_consonant_chord chord = true <->
  forall (i j : nat) a b,
    (i < j)%nat -> nth_error chord i = Some a -> nth_error chord j = Some b ->
    interval_in a b = true.
Proof.
  induction chord as [|x later IH].
  - split; [|reflexivity]. intros _ i j a b _ Hi. destruct i; discriminate.
  - rewrite is_consonant_chord_cons, andb_true_iff, forallb_forall, IH.
    split.
    + intros [Hx Hl] i j a b Hij Hi Hj.
      destruct j as [|j]; [lia|]. cbn in Hj.
      destruct i as [|i]; cbn in Hi.
      * injection Hi as <-. apply Hx. eapply nth_error_In; eassumption.
      * apply (Hl i j); auto; lia.
    + intros H. split.
      * intros y Hy. apply In_nth_error in Hy as [j Hj].
        apply (H 0%nat (S j)); auto; lia.
      * intros i j a b Hij Hi Hj. apply (H (S i) (S j)); auto; lia.
Qed.

(** The interval read downwards is the opposite of the interval read
    upwards, modulo 12. *)
Lemma interval_opp a b : (a - b) mod 12 = (- ((b - a) mod 12)) mod 12.
Proof.
  replace (a - b) with (0 - (b - a)) by lia.
  rewrite <- Zminus_mod_idemp_r. reflexivity.
Qed.

(** Apart from the fifth (7 up, 5 down), an interval is allowed in one
    direction exactly when it is allowed in the other. *)
Lemma interval_in_sym a b :
  (b - a) mod 12 <> 7 -> (a - b) mod 12 <> 7 ->
  interval_in a b = interval_in b a.
Proof.
  intros Hab Hba.
  unfold interval_in, consonant_intervals.
  rewrite (interval_opp a b) in Hba |- *.
  pose proof (Z.mod_pos_bound (b - a) 12 ltac:(lia)) as Hb.
  set (d := (b - a) mod 12) in *.
  assert (d = 0 \/ d = 1 \/ d = 2 \/ d = 3 \/ d = 4 \/ d = 5 \/ d = 6
          \/ d = 7 \/ d = 8 \/ d = 9 \/ d = 10 \/ d = 11) as Hd by lia.
  clearbody d.
  repeat (destruct Hd as [->|Hd]; [first [reflexivity | now exfalso]|]).
  subst d. first [reflexivity | now exfalso].
Qed.

Lemma forallb_Permutation (f : Z -> bool) l l' :
  Permutation l l' -> forallb f l = forallb f l'.
Proof.
  induction 1 as [|x l l' _ IH|x y l|l l' l'' _ IH1 _ IH2]; cbn.
  - reflexivity.
  - now rewrite IH.
  - now destruct (f x), (f y).
  - congruence.
Qed.

(** Reordering keeps the result as long as every two tones of the chord
    are related the same way in both directions. *)
Lemma is_consonant_chord_Permutation chord chord' :
  Permutation chord chord' ->
  (forall x y, In x chord -> In y chord -> interval_in x y = interval_in y x) ->
  is_consonant_chord chord = is_consonant_chord chord'.
Proof.
  induction 1 as [|x l l' Hp IH|x y l|l l' l'' Hp1 IH1 Hp2 IH2]; intros Hsym.
  - reflexivity.
  - rewrite !is_consonant_chord_cons.
    rewrite (forallb_Permutation (interval_in x) l l' Hp).
    rewrite IH; [reflexivity|].
    intros a b Ha Hb. apply Hsym; now right.
  - rewrite !is_consonant_chord_cons. cbn [forallb].
    rewrite (Hsym y x) by (cbn; auto).
    destruct (interval_in x y), (forallb (interval_in y) l),
      (forallb (interval_in x) l); reflexivity.
  - rewrite IH1 by assumption. apply IH2.
    intros a b Ha Hb. apply Hsym.
    + apply Permutation_in with l'; [now apply Permutation_sym|assumption].
    + apply Permutation_in with l'; [now apply Permutation_sym|assumption].
Qed.

End Consonance.

(** C2. [is_consonant_chord] returns [True] exactly when, for every two
    positions [i < j], [(chord[j] - chord[i]) % 12] is one of 0, 3, 4, 7,
    8, 9; it returns [True] on [[0, 4, 7]] and [False] on
    [[0, 4, 7, 10, 15]]. *)
Theorem is_consonant_chord_iff (chord : list Z) :
  (is_consonant_chord chord = true <->
   forall (i j : nat) (a b : Z),
     (i < j)%nat -> nth_error chord i = Some a -> nth_error chord j = Some b ->
     In ((b - a) mod 12) [0; 3; 4; 7; 8; 9])
  /\ is_consonant_chord [0; 4; 7] = true
  /\ is_consonant_chord [0; 4; 7; 10; 15] = false.
Proof.
  split; [|split; reflexivity].
  rewrite is_consonant_chord_pairs.
  split; intros H i j a b Hij Hi Hj.
  - apply interval_in_spec. eapply H; eassumption.
  - apply interval_in_spec. eapply H; eassumption.
Qed.

(** ** When the order of the chord matters *)

Lemma has_interval_spec (ds chord : list Z) :
  has_interval ds chord = true <->
  exists x y, In x chord /\ In y chord /\ In ((y - x) mod 12) ds.
Proof.
  unfold has_interval. rewrite existsb_exists. split.
  - intros (x & Hx & H). apply existsb_exists in H as (y & Hy & H).
    apply existsb_exists in H as (d & Hd & E). apply Z.eqb_eq in E.
    exists x, y. rewrite E. auto.
  - intros (x & y & Hx & Hy & Hd). exists x. split; [assumption|].
    apply existsb_exists. exists y. split; [assumption|].
    apply existsb_exists. exists ((y - x) mod 12). split; [assumption|].
    apply Z.eqb_refl.
Qed.

Lemma has_interval_Permutation (ds chord chord' : list Z) :
  Permutation chord chord' -> has_interval ds chord = has_interval ds chord'.
Proof.
  intros Hp. apply eq_true_iff_eq. rewrite !has_interval_spec.
  split; intros (x & y & Hx & Hy & Hd); exists x, y;
    (split; [|split; [|assumption]]);
    first [ now apply (Permutation_in _ Hp)
          | now apply (Permutation_in _ (Permutation_sym Hp)) ].
Qed.

(** Every interval modulo 12 is allowed, or is a fourth (5), or is one of
    1, 2, 6, 10, 11. *)
Lemma interval_cases (a b : Z) :
  interval_in a b = true
  \/ (b - a) mod 12 = 5
  \/ In ((b - a) mod 12) [1; 2; 6; 10; 11].
Proof.
  pose proof (Z.mod_pos_bound (b - a) 12 ltac:(lia)) as Hb.
  destruct (interval_in a b) eqn:E; [now left|right].
  assert (~ In ((b - a) mod 12) [0; 3; 4; 7; 8; 9]) as Hn.
  { intros Hin. apply interval_in_spec in Hin. congruence. }
  cbn in Hn |- *. lia.
Qed.

(** An interval of 1, 2, 6, 10 or 11 is not allowed in either direction. *)
Lemma dissonant_both_ways (a b : Z) :
  In ((b - a) mod 12) [1; 2; 6; 10; 11] ->
  interval_in a b = false /\ interval_in b a = false.
Proof.
  intros Hd. split; apply not_true_iff_false; intros E;
    apply interval_in_spec in E.
  - cbn in Hd, E. lia.
  - rewrite interval_opp in E. cbn in Hd.
    destruct Hd as [H|[H|[H|[H|[H|[]]]]]]; rewrite <- H in E;
      vm_compute in E; intuition discriminate.
Qed.

Lemma consonant_either_way (chord : list Z) (x y : Z) :
  is_consonant_chord chord = true -> In x chord -> In y chord ->
  interval_in x y = true \/ interval_in y x = true.
Proof.
  induction chord as [|a later IH]; [intros _ []|].
  rewrite is_consonant_chord_cons, andb_true_iff, forallb_forall.
  intros [Ha Hlater] [<-|Hx] [<-|Hy].
  - left. unfold interval_in. rewrite Z.sub_diag. reflexivity.
  - left. now apply Ha.
  - right. now apply Ha.
  - now apply IH.
Qed.

(** A chord holding two tones 1, 2, 6, 10 or 11 apart is rejected in
    whatever order it is written. *)
Lemma dissonant_pair_rejected (chord : list Z) :
  has_interval [1; 2; 6; 10; 11] chord = true ->
  is_consonant_chord chord = false.
Proof.
  intros H. apply has_interval_spec in H as (x & y & Hx & Hy & Hd).
  apply not_true_iff_false. intros Hc.
  destruct (dissonant_both_ways x y Hd) as [Hxy Hyx].
  destruct (consonant_either_way chord x y Hc Hx Hy); congruence.
Qed.

Lemma consonant_all_pairs (chord : list Z) :
  (forall a b, In a chord -> In b chord -> interval_in a b = true) ->
  is_consonant_chord chord = true.
Proof.
  induction chord as [|a later IH]; [reflexivity|]. intros H.
  rewrite is_consonant_chord_cons, andb_true_iff, forallb_forall. split.
  - intros b Hb. apply H; [now left|now right].
  - apply IH. intros x y Hx Hy. apply H; now right.
Qed.

Lemma consonant_app_true (first second : list Z) :
  is_consonant_chord first = true ->
  is_consonant_chord second = true ->
  (forall a b, In a first -> In b second -> interval_in a b = true) ->
  is_consonant_chord (first ++ second) = true.
Proof.
  induction first as [|x first IH]; intros H1 H2 Hcross; [exact H2|].
  cbn [app]. rewrite is_consonant_chord_cons, andb_true_iff in H1 |- *.
  destruct H1 as [Hx H1]. rewrite forallb_app, andb_true_iff. split.
  - split; [assumption|]. apply forallb_forall. intros b Hb.
    apply Hcross; [now left|assumption].
  - apply IH; auto. intros a b Ha Hb. apply Hcross; [now right|assumption].
Qed.

Lemma filter_split_Permutation (f : Z -> bool) (l : list Z) :
  Permutation l (filter f l ++ filter (fun x => negb (f x)) l).
Proof.
  induction l as [|a l IH]; [constructor|].
  cbn [filter]. destruct (f a); cbn [negb app].
  - now apply perm_skip.
  - now apply Permutation_cons_app.
Qed.

Lemma below_a_fifth_spec (chord : list Z) (x : Z) :
  below_a_fifth chord x = true <->
  exists y, In y chord /\ (y - x) mod 12 = 7.
Proof.
  unfold below_a_fifth. rewrite existsb_exists.
  split; intros (y & Hy & E); exists y; (split; [assumption|]);
    now apply Z.eqb_eq.
Qed.

(** Without a pair 1, 2, 6, 10 or 11 apart, the chord written with the
    lower tone of every fifth first is accepted. *)
Lemma fifths_upward_accepted (chord : list Z) :
  has_interval [1; 2; 6; 10; 11] chord = false ->
  is_consonant_chord (fifths_upward chord) = true.
Proof.
  intros Hd.
  assert (forall a b, In a chord -> In b chord ->
                      interval_in a b = true \/ (a - b) mod 12 = 7) as Hcase.
  { intros a b Ha Hb.
    destruct (interval_cases a b) as [H|[H|H]]; [now left| |].
    - right. rewrite interval_opp, H. reflexivity.
    - exfalso. apply not_true_iff_false in Hd. apply Hd.
      apply has_interval_spec. now exists a, b. }
  assert (forall a b, In a chord -> In b chord ->
                      below_a_fifth chord b = false ->
                      interval_in a b = true) as Hupper.
  { intros a b Ha Hb Hsrc. destruct (Hcase a b Ha Hb) as [H|H]; [assumption|].
    apply not_true_iff_false in Hsrc. exfalso. apply Hsrc.
    apply below_a_fifth_spec. now exists a. }
  assert (forall a b, In a chord -> In b chord ->
                      below_a_fifth chord a = true ->
                      below_a_fifth chord b = true ->
                      interval_in a b = true) as Hlower.
  { intros a b Ha Hb Hsa _. destruct (Hcase a b Ha Hb) as [H|H]; [assumption|].
    apply below_a_fifth_spec in Hsa as (c & Hc & Hca).
    exfalso. apply not_true_iff_false in Hd. apply Hd.
    apply has_interval_spec. exists b, c. split; [assumption|].
    split; [assumption|].
    replace (c - b) with ((c - a) + (a - b)) by lia.
    rewrite Z.add_mod, Hca, H by lia. cbn. tauto. }
  unfold fifths_upward. apply consonant_app_true.
  - apply consonant_all_pairs. intros a b Ha Hb.
    apply filter_In in Ha as [Ha Hsa]. apply filter_In in Hb as [Hb Hsb].
    now apply Hlower.
  - apply consonant_all_pairs. intros a b Ha Hb.
    apply filter_In in Ha as [Ha _]. apply filter_In in Hb as [Hb Hsb].
    apply negb_true_iff in Hsb. now apply Hupper.
  - intros a b Ha Hb.
    apply filter_In in Ha as [Ha _]. apply filter_In in Hb as [Hb Hsb].
    apply negb_true_iff in Hsb. now apply Hupper.
Qed.

(** With two tones a fifth apart, the chord written with the upper tone
    first and the lower tone second is rejected. *)
Lemma fifth_downward_rejected (chord : list Z) :
  has_interval [7] chord = true ->
  exists chord', Permutation chord chord' /\ is_consonant_chord chord' = false.
Proof.
  intros H. apply has_interval_spec in H as (x & y & Hx & Hy & H7).
  assert ((y - x) mod 12 = 7) as E by (destruct H7 as [H7|[]]; now symmetry).
  clear H7.
  assert (x <> y) as Hne by (intros ->; rewrite Z.sub_diag in E; discriminate).
  apply in_split in Hy as (l1 & l2 & ->).
  assert (In x (l1 ++ l2)) as Hx'.
  { rewrite in_app_iff in Hx |- *. cbn in Hx. intuition congruence. }
  apply in_split in Hx' as (m1 & m2 & Hm).
  exists (y :: x :: m1 ++ m2). split.
  - apply Permutation_sym, Permutation_cons_app. rewrite Hm.
    apply Permutation_cons_app. reflexivity.
  - rewrite is_consonant_chord_cons. cbn [forallb].
    assert (interval_in y x = false) as ->; [|reflexivity].
    unfold interval_in. rewrite interval_opp, E. reflexivity.
Qed.

(** C6, as the code has it. [is_consonant_chord] gives the same result on
    every reordering of a chord exactly when the chord has no two tones a
    fifth apart (no difference of two entries is 7 modulo 12) or has two
    tones whose difference modulo 12 is 1, 2, 6, 10 or 11 (then every
    order is rejected). A chord with a fifth and no such pair is accepted
    in one order and rejected in another. *)
Theorem is_consonant_chord_reorder (chord : list Z) :
  (forall chord', Permutation chord chord' ->
                  is_consonant_chord chord' = is_consonant_chord chord)
  <-> has_interval [7] chord = false
      \/ has_interval [1; 2; 6; 10; 11] chord = true.
Proof.
  split.
  - intros Hinv.
    destruct (has_interval [7] chord) eqn:F; [|now left].
    destruct (has_interval [1; 2; 6; 10; 11] chord) eqn:D; [now right|].
    exfalso.
    destruct (fifth_downward_rejected chord F) as (down & Hp & Hdown).
    pose proof (Hinv down Hp) as E1.
    pose proof (Hinv (fifths_upward chord)
                  (filter_split_Permutation (below_a_fifth chord) chord)) as E2.
    rewrite (fifths_upward_accepted chord D) in E2. congruence.
  - intros [F|D] chord' Hp.
    + symmetry. apply is_consonant_chord_Permutation; [assumption|].
      assert (forall x y, In x chord -> In y chord -> (y - x) mod 12 <> 7)
        as Hno.
      { intros x y Hx Hy E. apply not_true_iff_false in F. apply F.
        apply has_interval_spec. exists x, y. rewrite E. cbn. tauto. }
      intros x y Hx Hy. apply interval_in_sym; auto.
    + rewrite (dissonant_pair_rejected chord D).
      apply dissonant_pair_rejected.
      now rewrite <- (has_interval_Permutation _ chord chord' Hp).
Qed.

Lemma is_consonant_chord_reorder_witness :
  is_consonant_chord [11; 0; 7; 4] = is_consonant_chord [0; 4; 7; 11]
  /\ is_consonant_chord [8; 0; 4] = is_consonant_chord [0; 4; 8].
Proof.
  split.
  - apply (proj2 (is_consonant_chord_reorder [0; 4; 7; 11])).
    + right. reflexivity.
    + apply perm_trans with [11; 0; 4; 7].
      * apply Permutation_sym, (Permutation_cons_append [0; 4; 7] 11).
      * do 2 apply perm_skip. apply perm_swap.
  - apply (proj2 (is_consonant_chord_reorder [0; 4; 8])).
    + left. reflexivity.
    + apply Permutation_sym, (Permutation_cons_append [0; 4] 8).
Defined.

(** Of the registered formulas, read as chords, the order matters for
    "major" and "minor" only. *)
Example registered_formulas_order_matters :
  map fst
    (filter (fun it => has_interval [7] (snd it)
                       && negb (has_interval [1; 2; 6; 10; 11] (snd it)))
       (items chord_formulas))
  = ["major"; "minor"].
Proof. reflexivity. Qed.

(** C6 as stated fails: [[0, 7]] is consonant (7 is in the list), its
    reordering [[7, 0]] is not (the interval is then 5). *)
Lemma is_consonant_chord_order_matters :
  Permutation [0; 7] [7; 0]
  /\ is_consonant_chord [0; 7] = true
  /\ is_consonant_chord [7; 0] = false.
Proof.
  split; [apply perm_swap|]. split; reflexivity.
Qed.

(** * Chords *)

Lemma generate_chord_canonical (root : string) (formula : list Z) :
  In root notes ->
  generate_chord root formula = OK (chord_at (pitch_class root) formula).
Proof.
  intros Hroot. destruct (index_notes_In root Hroot) as (p & Hidx & _).
  unfold generate_chord, pitch_class. now rewrite Hidx.
Qed.

Lemma chord_at_range (p : Z) (formula : list Z) :
  Forall (fun x => 0 <= x < 12) (chord_at p formula).
Proof.
  unfold chord_at. apply Forall_map, Forall_forall.
  intros interval _. apply Z.mod_pos_bound. lia.
Qed.

(** C3. For a root among the twelve note names and any formula (the
    registered ones included), [generate_chord] returns a chord as long as
    the formula, with every element in [0, 12), and whose entry at each
    position is the root's pitch class plus the formula's offset at that
    position, modulo 12: formula order is kept and equal values are kept. *)
Theorem generate_chord_shape (root : string) (formula : list Z) :
  In root notes ->
  exists p chord,
    index notes root = OK p
    /\ generate_chord root formula = OK chord
    /\ List.length chord = List.length formula
    /\ Forall (fun x => 0 <= x < 12) chord
    /\ forall (k : nat) (offset : Z),
         nth_error formula k = Some offset ->
         nth_error chord k = Some ((p + offset) mod 12).
Proof.
  intros Hroot. destruct (index_notes_In root Hroot) as (p & Hidx & _).
  exists p, (chord_at p formula).
  split; [assumption|].
  split; [unfold generate_chord; now rewrite Hidx|].
  split; [apply length_map|].
  split; [apply chord_at_range|].
  intros k offset Hk. unfold chord_at.
  now rewrite nth_error_map, Hk.
Qed.

Lemma generate_chord_shape_witness :
  exists p chord,
    index notes "A" = OK p
    /\ generate_chord "A" [0; 4; 7; 12; 16] = OK chord
    /\ List.length chord = 5%nat
    /\ Forall (fun x => 0 <= x < 12) chord
    /\ forall (k : nat) (offset : Z),
         nth_error [0; 4; 7; 12; 16] k = Some offset ->
         nth_error chord k = Some ((p + offset) mod 12).
Proof.
  apply (generate_chord_shape "A" [0; 4; 7; 12; 16]). cbn. tauto.
Defined.

(** Every registered formula is covered, and a formula whose offsets
    collapse modulo 12 keeps the repeated pitch classes. *)
Example generate_chord_registered :
  Forall (fun it => generate_chord "D" (snd it)
                    = OK (chord_at 2 (snd it))) (items chord_formulas).
Proof. repeat constructor. Qed.

Example generate_chord_keeps_duplicates :
  generate_chord "A" [0; 4; 7; 12; 16] = OK [9; 1; 4; 9; 1].
Proof. reflexivity. Qed.

(** * Progressions *)

Section Progression.

Context {A : Type}.
Implicit Types (chords progression : list A) (pattern : list Z).

Lemma generate_progression_ok chords pattern progression :
  generate_progression chords pattern = OK progression <->
  Forall2 (fun i c => getitem chords i = OK c) pattern progression.
Proof.
  revert progression.
  induction pattern as [|i rest IH]; intros progression; cbn.
  - split.
    + intros [= <-]. constructor.
    + intros H. inversion H. reflexivity.
  - destruct (getitem chords i) as [c|e] eqn:Ei; cbn [bind].
    + destruct (generate_progression chords rest) as [cs|e] eqn:Er;
        cbn [bind].
      * split.
        -- intros [= <-]. constructor; [assumption|]. now apply IH.
        -- intros H. inversion H as [|? c' ? cs' Hc Hcs]; subst.
           apply IH in Hcs. congruence.
      * split; [discriminate|].
        intros H. inversion H as [|? c' ? cs' Hc Hcs]; subst.
        apply IH in Hcs. discriminate.
    + split; [discriminate|].
      intros H. inversion H; subst. congruence.
Qed.

Lemma generate_progression_error chords pattern e :
  generate_progression chords pattern = Raise e -> e = IndexError.
Proof.
  induction pattern as [|i rest IH]; cbn; [discriminate|].
  destruct (getitem chords i) as [c|e'] eqn:Ei; cbn [bind].
  - destruct (generate_progression chords rest) as [cs|e'']; cbn [bind].
    + discriminate.
    + intros [= <-]. now apply IH.
  - intros [= <-]. eapply getitem_error; eassumption.
Qed.

Lemma generate_progression_raises chords pattern :
  raises (generate_progression chords pattern) <->
  Exists (fun i => raises (getitem chords i)) pattern.
Proof.
  induction pattern as [|i rest IH]; cbn.
  - split; [intros [e He]; discriminate | intros H; inversion H].
  - rewrite Exists_cons, <- IH.
    destruct (getitem chords i) as [c|e] eqn:Ei; cbn [bind].
    + destruct (generate_progression chords rest) as [cs|e]; cbn [bind].
      * split; [intros [e He]; discriminate|].
        intros [[e He]|[e He]]; discriminate.
      * split; [intros _; right|intros _]; eexists; reflexivity.
    + split; [intros _; left|intros _]; eexists; reflexivity.
Qed.

(** With every index in [0, len(chords)), the progression is the chords
    at those positions, in pattern order. *)
Lemma generate_progression_in_range chords pattern :
  Forall (fun i => 0 <= i < Z.of_nat (List.length chords)) pattern ->
  exists progression,
    generate_progression chords pattern = OK progression
    /\ Forall2 (fun i c => nth_error chords (Z.to_nat i) = Some c)
         pattern progression.
Proof.
  induction 1 as [|i rest Hi _ (cs & Hcs & Hall)].
  - exists []. split; [reflexivity|constructor].
  - destruct (nth_error chords (Z.to_nat i)) as [c|] eqn:E.
    + exists (c :: cs). split.
      * cbn. apply getitem_nonneg in E; [|lia]. now rewrite E, Hcs.
      * now constructor.
    + apply nth_error_None in E. lia.
Qed.

End Progression.

(** C4. When every index of the pattern is in [0, len(chords)),
    [generate_progression] returns, position by position and in pattern
    order, the chord at each index (an index, and so a chord, may repeat).
    The registered pattern "12-bar-blues" on a slate of seven chords gives
    the twelve chords [c0 c0 c0 c0 c3 c3 c0 c0 c4 c3 c0 c0]. *)
Theorem generate_progression_maps_pattern {A : Type}
    (chords : list A) (pattern : list Z) (c0 c1 c2 c3 c4 c5 c6 : A) :
  Forall (fun i => 0 <= i < Z.of_nat (List.length chords)) pattern ->
  (exists progression,
      generate_progression chords pattern = OK progression
      /\ Forall2 (fun i c => nth_error chords (Z.to_nat i) = Some c)
           pattern progression)
  /\ lookup progressions "12-bar-blues" = OK [0; 0; 0; 0; 3; 3; 0; 0; 4; 3; 0; 0]
  /\ generate_progression [c0; c1; c2; c3; c4; c5; c6]
       [0; 0; 0; 0; 3; 3; 0; 0; 4; 3; 0; 0]
     = OK [c0; c0; c0; c0; c3; c3; c0; c0; c4; c3; c0; c0].
Proof.
  intros Hrange. split; [now apply generate_progression_in_range|].
  split; reflexivity.
Qed.

Lemma generate_progression_maps_pattern_witness :
  (exists progression,
      generate_progression ["I"; "ii"; "iii"; "IV"; "V"; "vi"; "vii"] [1; 4; 0; 0]
      = OK progression
      /\ Forall2 (fun i c =>
                    nth_error ["I"; "ii"; "iii"; "IV"; "V"; "vi"; "vii"] (Z.to_nat i)
                    = Some c)
           [1; 4; 0; 0] progression)
  /\ lookup progressions "12-bar-blues" = OK [0; 0; 0; 0; 3; 3; 0; 0; 4; 3; 0; 0]
  /\ generate_progression ["I"; "ii"; "iii"; "IV"; "V"; "vi"; "vii"]
       [0; 0; 0; 0; 3; 3; 0; 0; 4; 3; 0; 0]
     = OK ["I"; "I"; "I"; "I"; "IV"; "IV"; "I"; "I"; "V"; "IV"; "I"; "I"].
Proof.
  apply (generate_progression_maps_pattern
           ["I"; "ii"; "iii"; "IV"; "V"; "vi"; "vii"] [1; 4; 0; 0]).
  repeat (constructor; [cbn; lia|]). constructor.
Defined.

(** C5, as the code has it. [generate_progression] raises exactly when some
    index of the pattern is outside [-len(chords), len(chords)) (an index
    in [-len(chords), 0) counts from the end of the list), and the
    exception is then [IndexError]. Index 7 on a list of seven chords
    raises; a pattern with every index in [0, len(chords)) does not. *)
Theorem generate_progression_index_error {A : Type}
    (chords : list A) (pattern : list Z) :
  (generate_progression chords pattern = Raise IndexError <->
   Exists (fun i => i < - Z.of_nat (List.length chords)
                    \/ Z.of_nat (List.length chords) <= i) pattern)
  /\ (forall e, generate_progression chords pattern = Raise e -> e = IndexError)
  /\ (List.length chords = 7%nat -> In 7 pattern ->
      generate_progression chords pattern = Raise IndexError)
  /\ (Forall (fun i => 0 <= i < Z.of_nat (List.length chords)) pattern ->
      exists progression, generate_progression chords pattern = OK progression).
Proof.
  assert (generate_progression chords pattern = Raise IndexError <->
          Exists (fun i => i < - Z.of_nat (List.length chords)
                           \/ Z.of_nat (List.length chords) <= i) pattern)
    as Hiff.
  { rewrite Exists_exists. split.
    - intros H.
      assert (raises (generate_progression chords pattern)) as Hr
          by (eexists; eassumption).
      apply generate_progression_raises, Exists_exists in Hr as (i & Hi & Hg).
      exists i. split; [assumption|]. now apply getitem_raises.
    - intros (i & Hi & Hout).
      assert (raises (generate_progression chords pattern)) as [e He].
      { apply generate_progression_raises, Exists_exists.
        exists i. split; [assumption|]. now apply getitem_raises. }
      rewrite He. f_equal. eapply generate_progression_error. eassumption. }
  split; [exact Hiff|].
  split; [intros e; apply generate_progression_error|].
  split.
  - intros Hlen Hin. apply Hiff, Exists_exists. exists 7. split; [assumption|lia].
  - intros Hrange.
    destruct (generate_progression_in_range chords pattern Hrange)
      as (progression & Hok & _).
    now exists progression.
Qed.

Lemma generate_progression_index_error_witness :
  generate_progression [60; 62; 64; 65; 67; 69; 71] [0; 7] = Raise IndexError
  /\ exists progression,
       generate_progression [60; 62; 64; 65; 67; 69; 71] [0; 6] = OK progression.
Proof.
  split.
  - apply (generate_progression_index_error [60; 62; 64; 65; 67; 69; 71] [0; 7]).
    + reflexivity.
    + cbn. tauto.
  - apply (generate_progression_index_error [60; 62; 64; 65; 67; 69; 71] [0; 6]).
    repeat (constructor; [cbn; lia|]). constructor.
Defined.

(** C5 as stated fails: index -1 is outside [0, 7), and the call returns
    the last chord instead of raising. *)
Lemma generate_progression_negative_index :
  ~ (0 <= -1 < Z.of_nat (List.length [60; 62; 64; 65; 67; 69; 71]))
  /\ generate_progression [60; 62; 64; 65; 67; 69; 71] [-1] = OK [71].
Proof.
  split; [cbn; lia|reflexivity].
Qed.

(** * All chords of a scale, and the slate of the progressions *)

Lemma lookup_key {V : Type} (d : dict V) (k : string) :
  In k (keys d) -> exists v, lookup d k = OK v.
Proof.
  induction d as [|[k' v'] d IH]; cbn; [contradiction|].
  destruct (String.eqb_spec k' k) as [->|Hne].
  - intros _. now exists v'.
  - intros [Heq|Hin]; [contradiction|now apply IH].
Qed.

Lemma formulas_loop_entries (root : string) (its : list (string * list Z)) :
  In root notes ->
  forall all_chords,
    formulas_loop root its all_chords = OK (all_chords ++ entries_on its root).
Proof.
  intros Hroot. induction its as [|[chord_name formula] rest IH];
    intros all_chords; cbn [formulas_loop entries_on map].
  - now rewrite app_nil_r.
  - rewrite generate_chord_canonical by assumption. cbn [bind].
    rewrite IH, <- app_assoc. reflexivity.
Qed.

Lemma roots_loop_entries (scale : list string) :
  Forall (fun r => In r notes) scale ->
  forall all_chords,
    roots_loop scale all_chords
    = OK (all_chords ++ flat_map (entries_on (items chord_formulas)) scale).
Proof.
  induction 1 as [|root rest Hroot _ IH]; intros all_chords;
    cbn [roots_loop flat_map].
  - now rewrite app_nil_r.
  - rewrite formulas_loop_entries by assumption. cbn [bind].
    rewrite IH, <- app_assoc. reflexivity.
Qed.

Lemma note_at_In (p : Z) : 0 <= p < 12 -> In (note_at p) notes.
Proof.
  intros Hp. eapply nth_error_In, note_at_nth_error. eassumption.
Qed.

Lemma cursors_notes (steps : list Z) :
  forall cur, Forall (fun r => In r notes) (map note_at (cursors cur steps)).
Proof.
  induction steps as [|s rest IH]; intros cur; cbn [cursors map];
    constructor; [|apply IH].
  apply note_at_In, Z.mod_pos_bound. lia.
Qed.

(** A generated scale starts at the root, and every chord on it can be
    built; the first seven entries of the chord list are the first seven
    registered formulas on the root of the scale. *)
Lemma first_seven_chords (root scale_type : string) :
  In root notes -> In scale_type (keys scales) ->
  exists scale all_chords,
    generate_scale root scale_type = OK scale
    /\ generate_all_chords_for_scale scale = OK all_chords
    /\ firstn 7 all_chords = entries_on (firstn 7 (items chord_formulas)) root.
Proof.
  intros Hroot Htype.
  destruct (lookup_key scales scale_type Htype) as [steps Hsteps].
  destruct (index_notes_In root Hroot) as (p & Hidx & _).
  exists (root :: map note_at (cursors p steps)).
  eexists. split; [now apply generate_scale_unfold|].
  unfold generate_all_chords_for_scale.
  rewrite roots_loop_entries by (constructor; [assumption|apply cursors_notes]).
  split; [reflexivity|].
  cbn [app flat_map]. rewrite firstn_app.
  replace (7 - List.length (entries_on (items chord_formulas) root))%nat
    with 0%nat by (unfold entries_on; rewrite length_map; reflexivity).
  rewrite firstn_O, app_nil_r.
  unfold entries_on. now rewrite firstn_map.
Qed.

(** C7, evaluated on the scale of C major. The chord list has 240 entries
    (8 scale entries, 30 formulas each, root by root), and its first seven
    entries are all chords on the root C, one for each of the first seven
    registered formulas: their roots are not the seven scale degrees. *)
Theorem first_seven_chords_C_major :
  generate_scale "C" "major" = OK ["C"; "D"; "E"; "F"; "G"; "A"; "B"; "C"]
  /\ exists all_chords,
       generate_all_chords_for_scale ["C"; "D"; "E"; "F"; "G"; "A"; "B"; "C"]
       = OK all_chords
       /\ List.length all_chords = 240%nat
       /\ firstn 7 all_chords
          = [ ("C", "major",   [0; 4; 7]);
              ("C", "major6",  [0; 4; 7; 9]);
              ("C", "major7",  [0; 4; 7; 11]);
              ("C", "major9",  [0; 4; 7; 11; 2]);
              ("C", "major11", [0; 4; 7; 11; 2; 5]);
              ("C", "major13", [0; 4; 7; 11; 2; 5; 9]);
              ("C", "minor",   [0; 3; 7]) ]
       /\ map entry_root (firstn 7 all_chords)
          <> ["C"; "D"; "E"; "F"; "G"; "A"; "B"].
Proof.
  split; [reflexivity|].
  eexists. split; [vm_compute; reflexivity|].
  split; [reflexivity|]. split; [reflexivity|].
  cbn. discriminate.
Qed.

(** C8, evaluated on the table and on the run for C major. Four of the
    registered patterns hold an index outside [0, 7): "I-bVII-IV",
    "i-bVI-bVII", "i-bVII-bVI-VII" and "i-iv-v"; the other twenty stay
    inside. On the seven-chord slate of C major, [generate_progression]
    raises [IndexError] on "I-bVII-IV" (index 10), the first of the four in
    table order, and [create_midi_files] ends with that exception. The
    table has 24 entries. *)
Theorem registered_progression_out_of_range :
  List.length progressions = 24%nat
  /\ map fst
       (filter (fun it => negb (forallb (fun i => (0 <=? i) && (i <? 7))
                                  (snd it)))
          (items progressions))
     = ["I-bVII-IV"; "i-bVI-bVII"; "i-bVII-bVI-VII"; "i-iv-v"]
  /\ lookup progressions "I-bVII-IV" = OK [0; 10; 3]
  /\ (exists scale all_chords,
        generate_scale "C" "major" = OK scale
        /\ generate_all_chords_for_scale scale = OK all_chords
        /\ List.length (slate_of all_chords) = 7%nat
        /\ generate_progression (slate_of all_chords) [0; 10; 3]
           = Raise IndexError)
  /\ create_midi_files "C" "major" = Raise IndexError.
Proof.
  split; [reflexivity|]. split; [reflexivity|]. split; [reflexivity|].
  split; [|vm_compute; reflexivity].
  do 2 eexists. split; [reflexivity|].
  split; [vm_compute; reflexivity|]. split; vm_compute; reflexivity.
Qed.

(** * Further properties of the engine *)

(** ** Consonance depends on the differences only *)

Lemma interval_in_shift (a b k : Z) :
  interval_in ((a + k) mod 12) ((b + k) mod 12) = interval_in a b.
Proof.
  unfold interval_in. rewrite <- Zminus_mod.
  replace (b + k - (a + k)) with (b - a) by lia. reflexivity.
Qed.

Lemma interval_in_add (a b k : Z) :
  interval_in (a + k) (b + k) = interval_in a b.
Proof.
  unfold interval_in.
  replace (b + k - (a + k)) with (b - a) by lia. reflexivity.
Qed.

Lemma is_consonant_chord_map (g : Z -> Z) (chord : list Z) :
  (forall a b, interval_in (g a) (g b) = interval_in a b) ->
  is_consonant_chord (map g chord) = is_consonant_chord chord.
Proof.
  intros Hg. induction chord as [|x later IH]; [reflexivity|].
  cbn [map]. rewrite !is_consonant_chord_cons, IH. f_equal.
  clear IH. induction later as [|y later IH]; [reflexivity|].
  cbn [map forallb]. now rewrite Hg, IH.
Qed.

(** X1. Moving every tone of a chord by the same number of semitones, with
    or without the reduction modulo 12, does not change the result of
    [is_consonant_chord]. *)
Theorem is_consonant_chord_transpose (chord : list Z) (k : Z) :
  is_consonant_chord (map (fun x => (x + k) mod 12) chord)
  = is_consonant_chord chord
  /\ is_consonant_chord (map (fun x => x + k) chord)
     = is_consonant_chord chord.
Proof.
  split; apply is_consonant_chord_map; intros a b.
  - apply interval_in_shift.
  - apply interval_in_add.
Qed.

(** X2. The chord [generate_chord] builds on a note name passes
    [is_consonant_chord] exactly when the formula itself, read as a chord,
    does: the filter does not depend on the root. *)
Theorem generate_chord_consonant_as_formula
    (root : string) (formula chord : list Z) :
  In root notes ->
  generate_chord root formula = OK chord ->
  is_consonant_chord chord = is_consonant_chord formula.
Proof.
  intros Hroot Hgen.
  rewrite generate_chord_canonical in Hgen by assumption.
  injection Hgen as <-. unfold chord_at.
  apply is_consonant_chord_map. intros a b.
  rewrite !(Z.add_comm (pitch_class root)). apply interval_in_shift.
Qed.

Lemma generate_chord_consonant_as_formula_witness :
  is_consonant_chord [7; 11; 2] = is_consonant_chord [0; 4; 7].
Proof.
  apply (generate_chord_consonant_as_formula "G" [0; 4; 7] [7; 11; 2]).
  - cbn. tauto.
  - reflexivity.
Defined.

(** X3. Leaving tones out of a consonant chord keeps it consonant: whatever
    the selection, the selected tones, in their order, pass
    [is_consonant_chord] when the whole chord does. *)
Theorem is_consonant_chord_filter (keep : Z -> bool) (chord : list Z) :
  is_consonant_chord chord = true ->
  is_consonant_chord (filter keep chord) = true.
Proof.
  induction chord as [|x later IH]; [reflexivity|].
  rewrite is_consonant_chord_cons, andb_true_iff. intros [Hx Hlater].
  cbn [filter]. destruct (keep x); [|now apply IH].
  rewrite is_consonant_chord_cons, andb_true_iff. split; [|now apply IH].
  rewrite forallb_forall in Hx |- *.
  intros y Hy. apply Hx. now apply filter_In in Hy.
Qed.

Lemma is_consonant_chord_filter_witness :
  is_consonant_chord (filter (fun x => negb (x =? 4)) [0; 4; 7]) = true.
Proof.
  apply (is_consonant_chord_filter (fun x => negb (x =? 4)) [0; 4; 7]).
  reflexivity.
Defined.

(** X4. A chord written as two parts one after the other is consonant
    exactly when both parts are and every interval from a tone of the
    first part up to a tone of the second part is allowed. *)
Theorem is_consonant_chord_app (first second : list Z) :
  is_consonant_chord (first ++ second) = true <->
  is_consonant_chord first = true
  /\ is_consonant_chord second = true
  /\ forall a b, In a first -> In b second ->
                 In ((b - a) mod 12) [0; 3; 4; 7; 8; 9].
Proof.
  induction first as [|x first IH].
  - cbn [app]. split.
    + intros H. repeat split; auto. intros a b [].
    + intros (_ & H & _). exact H.
  - cbn [app]. rewrite !is_consonant_chord_cons, !andb_true_iff, IH.
    rewrite forallb_app, andb_true_iff, !forallb_forall.
    split.
    + intros ((Hf & Hs) & H1 & H2 & Hcross). repeat split; auto.
      intros a b [<-|Ha] Hb.
      * apply interval_in_spec. now apply Hs.
      * now apply Hcross.
    + intros ((Hf & H1) & H2 & Hcross). repeat split; auto.
      * intros b Hb. apply interval_in_spec. apply Hcross; [now left|assumption].
      * intros a b Ha Hb. apply Hcross; [now right|assumption].
Qed.

(** ** Chords on a root *)

Lemma pitch_class_range (n : string) :
  In n notes -> 0 <= pitch_class n < 12 /\ note_at (pitch_class n) = n.
Proof.
  intros Hn. destruct (index_notes_In n Hn) as (p & Hidx & Hp & Hat).
  unfold pitch_class. rewrite Hidx. auto.
Qed.

Lemma generate_chord_unknown_root (root : string) (formula : list Z) :
  ~ In root notes -> generate_chord root formula = Raise ValueError.
Proof.
  intros Hroot. apply (index_from_not_in notes root 0) in Hroot.
  unfold generate_chord, index. now rewrite Hroot.
Qed.

(** X5. [generate_chord] raises exactly when the root is not one of the
    note names, and the exception is then [ValueError] whatever the formula
    is, the empty formula included; on a note name it returns a chord. *)
Theorem generate_chord_raises_iff (root : string) (formula : list Z) :
  (generate_chord root formula = Raise ValueError <-> ~ In root notes)
  /\ (forall e, generate_chord root formula = Raise e -> e = ValueError)
  /\ ((exists chord, generate_chord root formula = OK chord) <-> In root notes).
Proof.
  destruct (in_dec string_dec root notes) as [Hin|Hout].
  - rewrite generate_chord_canonical by assumption.
    split; [split; [discriminate|tauto]|].
    split; [discriminate|]. split; [auto|eauto].
  - rewrite generate_chord_unknown_root by assumption.
    split; [tauto|]. split; [congruence|].
    split; [intros [chord H]; discriminate|tauto].
Qed.

(** X6. Moving the root up by [k] semitones moves every tone of the chord
    up by [k] semitones modulo 12: the chord on the note [k] semitones above
    [root] is the chord on [root] with [k] added to each tone, modulo 12. *)
Theorem generate_chord_transpose
    (root : string) (formula chord : list Z) (p k : Z) :
  index notes root = OK p ->
  generate_chord root formula = OK chord ->
  exists root',
    getitem notes ((p + k) mod 12) = OK root'
    /\ generate_chord root' formula
       = OK (map (fun x => (x + k) mod 12) chord).
Proof.
  intros Hidx Hgen. unfold generate_chord in Hgen. rewrite Hidx in Hgen.
  cbn [bind] in Hgen. injection Hgen as <-.
  assert (0 <= (p + k) mod 12 < 12) as Hr by (apply Z.mod_pos_bound; lia).
  exists (note_at ((p + k) mod 12)).
  split; [now apply getitem_notes|].
  unfold generate_chord. rewrite index_note_at by assumption. cbn [bind].
  f_equal. rewrite map_map. apply map_ext. intros interval.
  rewrite Z.add_mod_idemp_l, Z.add_mod_idemp_l by lia.
  f_equal. lia.
Qed.

Lemma generate_chord_transpose_witness :
  exists root',
    getitem notes ((9 + 5) mod 12) = OK root'
    /\ generate_chord root' [0; 3; 7]
       = OK (map (fun x => (x + 5) mod 12) [9; 0; 4]).
Proof.
  apply (generate_chord_transpose "A" [0; 3; 7] [9; 0; 4] 9 5); reflexivity.
Defined.

Lemma distinct_values_NoDup (l : list Z) : distinct_values l = true -> NoDup l.
Proof.
  induction l as [|x rest IH]; cbn; [constructor|].
  rewrite andb_true_iff, negb_true_iff. intros [Hx Hrest].
  constructor; [|now apply IH].
  intros Hin. apply not_true_iff_false in Hx. apply Hx.
  apply existsb_exists. exists x. split; [assumption|apply Z.eqb_refl].
Qed.

Lemma chord_at_NoDup (p : Z) (formula : list Z) :
  NoDup (map (fun i => i mod 12) formula) -> NoDup (chord_at p formula).
Proof.
  unfold chord_at. induction formula as [|i rest IH]; cbn [map].
  - constructor.
  - intros H. inversion H as [|? ? Hi Hrest]; subst.
    constructor; [|now apply IH].
    rewrite in_map_iff in Hi |- *. intros (j & Hj & Hin).
    apply Hi. exists j. split; [|assumption].
    assert ((p + j - p) mod 12 = (p + i - p) mod 12) as E
        by (rewrite (Zminus_mod (p + j)), (Zminus_mod (p + i)), Hj; reflexivity).
    replace (p + j - p) with j in E by lia.
    replace (p + i - p) with i in E by lia. exact E.
Qed.

Lemma chord_formulas_distinct :
  Forall (fun it => NoDup (map (fun i => i mod 12) (snd it)))
    (items chord_formulas).
Proof.
  apply Forall_forall. intros it Hin. apply distinct_values_NoDup.
  revert it Hin. apply Forall_forall. repeat constructor.
Qed.

(** X7. On every note name, the chord of a registered formula holds as many
    different pitch classes as the formula has offsets: the registered
    offsets never collapse onto each other modulo 12. *)
Theorem registered_chord_NoDup
    (root chord_name : string) (formula chord : list Z) :
  lookup chord_formulas chord_name = OK formula ->
  generate_chord root formula = OK chord ->
  NoDup chord /\ List.length chord = List.length formula.
Proof.
  intros Hname Hgen.
  assert (In root notes) as Hroot.
  { destruct (in_dec string_dec root notes) as [Hin|Hout]; [assumption|].
    rewrite generate_chord_unknown_root in Hgen by assumption. discriminate. }
  rewrite generate_chord_canonical in Hgen by assumption.
  injection Hgen as <-. split; [|apply length_map].
  apply chord_at_NoDup.
  pose proof chord_formulas_distinct as D. rewrite Forall_forall in D.
  apply (D (chord_name, formula)). now apply lookup_In.
Qed.

Lemma registered_chord_NoDup_witness :
  NoDup [4; 8; 11; 3; 6; 9; 1]
  /\ List.length [4; 8; 11; 3; 6; 9; 1] = List.length [0; 4; 7; 11; 14; 17; 21].
Proof.
  apply (registered_chord_NoDup "E" "major13" [0; 4; 7; 11; 14; 17; 21]
           [4; 8; 11; 3; 6; 9; 1]); reflexivity.
Defined.

(** ** The chord list of a scale *)

Section Blocks.

Context {A B : Type} (g : A -> list B) (n : nat).
Hypothesis block : forall a, List.length (g a) = n.

Lemma flat_map_block_length (l : list A) :
  List.length (flat_map g l) = (n * List.length l)%nat.
Proof.
  induction l as [|a l IH]; cbn [flat_map List.length]; [lia|].
  rewrite length_app, block, IH. lia.
Qed.

Lemma flat_map_block_nth (l : list A) :
  forall (d f : nat) (a : A),
    nth_error l d = Some a -> (f < n)%nat ->
    nth_error (flat_map g l) (n * d + f) = nth_error (g a) f.
Proof.
  induction l as [|a0 l IH]; intros d f a Hd Hf.
  - destruct d; discriminate.
  - cbn [flat_map]. destruct d as [|d]; cbn in Hd.
    + injection Hd as ->. rewrite Nat.mul_0_r, Nat.add_0_l.
      apply nth_error_app1. now rewrite block.
    + rewrite nth_error_app2 by (rewrite block; lia).
      rewrite block.
      replace (n * S d + f - n)%nat with (n * d + f)%nat by lia.
      now apply IH.
Qed.

Lemma flat_map_block_skipn (l : list A) :
  forall d, skipn (n * d) (flat_map g l) = flat_map g (skipn d l).
Proof.
  induction l as [|a l IH]; intros d.
  - cbn. now rewrite !skipn_nil.
  - destruct d as [|d].
    + now rewrite Nat.mul_0_r.
    + cbn [flat_map skipn]. rewrite skipn_app, block.
      rewrite (skipn_all2 (g a)) by (rewrite block; lia).
      replace (n * S d - n)%nat with (n * d)%nat by lia.
      cbn [app]. apply IH.
Qed.

Lemma flat_map_block_firstn (l : list A) :
  forall d, firstn (n * d) (flat_map g l) = flat_map g (firstn d l).
Proof.
  induction l as [|a l IH]; intros d.
  - cbn. now rewrite !firstn_nil.
  - destruct d as [|d].
    + now rewrite Nat.mul_0_r.
    + cbn [flat_map firstn]. rewrite firstn_app, block.
      rewrite (firstn_all2 (g a)) by (rewrite block; lia).
      replace (n * S d - n)%nat with (n * d)%nat by lia.
      f_equal. apply IH.
Qed.

End Blocks.

Lemma entries_on_length (root : string) :
  List.length (entries_on (items chord_formulas) root) = 30%nat.
Proof. unfold entries_on. now rewrite length_map. Qed.

Lemma all_chords_canonical (scale : list string) :
  Forall (fun r => In r notes) scale ->
  generate_all_chords_for_scale scale
  = OK (flat_map (entries_on (items chord_formulas)) scale).
Proof.
  intros H. unfold generate_all_chords_for_scale.
  now rewrite roots_loop_entries.
Qed.

(** X8. On a scale whose entries are all note names,
    [generate_all_chords_for_scale] returns 30 entries per scale entry,
    scale entry after scale entry: the entry at position [30 * d + f] is the
    triple of the scale's entry [d], the name of the formula at position
    [f] of the table, and the chord [generate_chord] builds from them. *)
Theorem generate_all_chords_for_scale_layout (scale : list string) :
  Forall (fun r => In r notes) scale ->
  exists all_chords,
    generate_all_chords_for_scale scale = OK all_chords
    /\ List.length all_chords = (30 * List.length scale)%nat
    /\ forall (d f : nat) (root chord_name : string) (formula : list Z),
         nth_error scale d = Some root ->
         nth_error (items chord_formulas) f = Some (chord_name, formula) ->
         exists chord,
           generate_chord root formula = OK chord
           /\ nth_error all_chords (30 * d + f) = Some (root, chord_name, chord).
Proof.
  intros Hscale. eexists. split; [now apply all_chords_canonical|].
  split; [apply flat_map_block_length, entries_on_length|].
  intros d f root chord_name formula Hd Hf.
  exists (chord_at (pitch_class root) formula). split.
  - apply generate_chord_canonical.
    rewrite Forall_forall in Hscale. eapply Hscale, nth_error_In. eassumption.
  - assert (f < 30)%nat as Hlt.
    { change 30%nat with (List.length (items chord_formulas)).
      apply nth_error_Some. congruence. }
    rewrite (flat_map_block_nth _ 30 entries_on_length scale d f root Hd Hlt).
    unfold entries_on. now rewrite nth_error_map, Hf.
Qed.

Lemma generate_all_chords_for_scale_layout_witness :
  exists all_chords,
    generate_all_chords_for_scale ["D"; "A"] = OK all_chords
    /\ List.length all_chords = (30 * List.length ["D"; "A"])%nat
    /\ forall (d f : nat) (root chord_name : string) (formula : list Z),
         nth_error ["D"; "A"] d = Some root ->
         nth_error (items chord_formulas) f = Some (chord_name, formula) ->
         exists chord,
           generate_chord root formula = OK chord
           /\ nth_error all_chords (30 * d + f) = Some (root, chord_name, chord).
Proof.
  apply (generate_all_chords_for_scale_layout ["D"; "A"]).
  repeat (constructor; [cbn; tauto|]). constructor.
Defined.

Lemma roots_loop_cases (scale : list string) :
  forall all_chords,
    (Forall (fun r => In r notes) scale
     /\ exists all_chords', roots_loop scale all_chords = OK all_chords')
    \/ (Exists (fun r => ~ In r notes) scale
        /\ roots_loop scale all_chords = Raise ValueError).
Proof.
  induction scale as [|root rest IH]; intros all_chords.
  - left. split; [constructor|now exists all_chords].
  - cbn [roots_loop].
    destruct (in_dec string_dec root notes) as [Hin|Hout].
    + rewrite formulas_loop_entries by assumption. cbn [bind].
      destruct (IH (all_chords ++ entries_on (items chord_formulas) root))
        as [[Hall Hok]|[Hex Herr]].
      * left. split; [now constructor|exact Hok].
      * right. split; [now apply Exists_cons_tl|exact Herr].
    + right. split; [now apply Exists_cons_hd|].
      unfold items, chord_formulas. cbn [formulas_loop].
      now rewrite generate_chord_unknown_root.
Qed.

(** X9. [generate_all_chords_for_scale] raises exactly when some entry of
    the scale is not a note name, and the exception is then [ValueError];
    on the empty scale it returns the empty list. *)
Theorem generate_all_chords_for_scale_raises (scale : list string) :
  (generate_all_chords_for_scale scale = Raise ValueError <->
   Exists (fun r => ~ In r notes) scale)
  /\ (forall e, generate_all_chords_for_scale scale = Raise e -> e = ValueError)
  /\ generate_all_chords_for_scale [] = OK [].
Proof.
  unfold generate_all_chords_for_scale.
  destruct (roots_loop_cases scale []) as [[Hall [all' Hok]]|[Hex Herr]].
  - rewrite Hok. split; [|split; [discriminate|reflexivity]].
    split; [discriminate|]. intros Hex. exfalso.
    apply Exists_exists in Hex as (r & Hr & Hnot).
    rewrite Forall_forall in Hall. now apply Hnot, Hall.
  - rewrite Herr. split; [tauto|]. split; [congruence|reflexivity].
Qed.

Lemma consonant_entries_on (root : string) (its : list (string * list Z)) :
  filter consonant_entry (entries_on its root)
  = entries_on (filter (fun it => is_consonant_chord (snd it)) its) root.
Proof.
  unfold entries_on. induction its as [|[chord_name formula] rest IH];
    [reflexivity|].
  cbn [map filter snd fst]. unfold consonant_entry at 1, entry_chord at 1.
  cbn [snd]. unfold chord_at at 1.
  rewrite is_consonant_chord_map
    by (intros a b; rewrite !(Z.add_comm (pitch_class root));
        apply interval_in_shift).
  destruct (is_consonant_chord formula); cbn [map fst snd]; now rewrite IH.
Qed.

(** X10. Of the chords [generate_all_chords_for_scale] builds on a scale of
    note names, the ones that pass [is_consonant_chord] (the ones
    [create_midi_files] renders) are, for each scale entry in turn, its
    "major", "minor" and "augmented" chords, and no other. *)
Theorem consonant_chords_of_scale (scale : list string) :
  Forall (fun r => In r notes) scale ->
  exists all_chords,
    generate_all_chords_for_scale scale = OK all_chords
    /\ map (fun e => (entry_root e, entry_name e))
         (filter consonant_entry all_chords)
       = flat_map (fun r => [(r, "major"); (r, "minor"); (r, "augmented")])
           scale.
Proof.
  intros Hscale. eexists. split; [now apply all_chords_canonical|].
  clear Hscale. induction scale as [|root rest IH]; [reflexivity|].
  cbn [flat_map]. rewrite filter_app, map_app, IH.
  now rewrite consonant_entries_on.
Qed.

Lemma consonant_chords_of_scale_witness :
  exists all_chords,
    generate_all_chords_for_scale ["F#"; "B"] = OK all_chords
    /\ map (fun e => (entry_root e, entry_name e))
         (filter consonant_entry all_chords)
       = flat_map (fun r => [(r, "major"); (r, "minor"); (r, "augmented")])
           ["F#"; "B"].
Proof.
  apply (consonant_chords_of_scale ["F#"; "B"]).
  repeat (constructor; [cbn; tauto|]). constructor.
Defined.

(** ** Generated scales *)

Lemma generate_scale_inputs (root scale_type : string) (scale : list string) :
  generate_scale root scale_type = OK scale ->
  In root notes /\ In scale_type (keys scales).
Proof.
  unfold generate_scale. intros H.
  destruct (lookup scales scale_type) as [steps|e] eqn:Es; [|discriminate].
  destruct (index notes root) as [p|e] eqn:Ei; [|discriminate].
  split.
  - apply index_from_sound in Ei as [_ Hn]. eapply nth_error_In. eassumption.
  - apply lookup_In in Es. unfold keys.
    change scale_type with (fst (scale_type, steps)). now apply in_map.
Qed.

Lemma generated_scale_shape (root scale_type : string) :
  In root notes -> In scale_type (keys scales) ->
  exists scale,
    generate_scale root scale_type = OK scale
    /\ List.length scale = 8%nat
    /\ Forall (fun r => In r notes) scale
    /\ firstn 1 scale = [root]
    /\ skipn 7 scale = [root].
Proof.
  intros Hroot Htype.
  destruct (lookup_key scales scale_type Htype) as [steps Hsteps].
  destruct (index_notes_In root Hroot) as (p & Hidx & Hp & Hat).
  pose proof scales_well_formed as WF. rewrite Forall_forall in WF.
  destruct (WF _ (lookup_In _ _ _ Hsteps)) as [Hlen Htot].
  cbn [snd] in Hlen, Htot.
  exists (root :: map note_at (cursors p steps)).
  split; [now apply generate_scale_unfold|].
  split; [cbn [List.length]; now rewrite length_map, cursors_length, Hlen|].
  split; [constructor; [assumption|apply cursors_notes]|].
  split; [reflexivity|].
  pose proof (scale_entry root steps p 7 Hp Hat ltac:(lia)) as H7.
  rewrite firstn_all2, Htot in H7 by lia.
  replace (p + 12) with (p + 1 * 12) in H7 by lia.
  rewrite Z.mod_add, Z.mod_small, Hat in H7 by lia.
  destruct steps as [|s1 [|s2 [|s3 [|s4 [|s5 [|s6 [|s7 [|s8 rest]]]]]]]];
    try discriminate.
  cbn [cursors map nth_error] in H7. cbn [cursors map skipn].
  now injection H7 as ->.
Qed.

(** X11. A scale returned by [generate_scale] consists of note names only,
    and its first seven entries are seven different notes (the eighth is
    the root again). *)
Theorem generate_scale_degrees_distinct
    (root scale_type : string) (scale : list string) :
  generate_scale root scale_type = OK scale ->
  Forall (fun r => In r notes) scale
  /\ NoDup (firstn 7 scale)
  /\ skipn 7 scale = [root].
Proof.
  intros Hgen.
  destruct (generate_scale_inputs root scale_type scale Hgen) as [Hroot Htype].
  destruct (generated_scale_shape root scale_type Hroot Htype)
    as (scale' & Hgen' & _ & Hall & _ & Hlast).
  assert (scale' = scale) as -> by congruence.
  split; [assumption|]. split; [|assumption].
  clear Hall Hlast Hgen'. revert Hgen.
  cbn in Hroot, Htype.
  repeat (destruct Htype as [<-|Htype];
          [repeat (destruct Hroot as [<-|Hroot];
                   [intros [= <-]; apply distinctb_NoDup; reflexivity|]);
           contradiction|]).
  contradiction.
Qed.

Lemma generate_scale_degrees_distinct_witness :
  Forall (fun r => In r notes) ["D"; "E"; "F"; "G"; "A"; "B"; "C"; "D"]
  /\ NoDup (firstn 7 ["D"; "E"; "F"; "G"; "A"; "B"; "C"; "D"])
  /\ skipn 7 ["D"; "E"; "F"; "G"; "A"; "B"; "C"; "D"] = ["D"].
Proof.
  apply (generate_scale_degrees_distinct "D" "dorian"). reflexivity.
Defined.

(** X12. For a root among the note names and a registered scale type, the
    chord list of the generated scale has 240 entries; its last 30 entries
    (the chords on the eighth scale entry) repeat its first 30 (the chords
    on the root); and 24 of the 240 pass [is_consonant_chord]. *)
Theorem all_chords_of_generated_scale (root scale_type : string) :
  In root notes -> In scale_type (keys scales) ->
  exists scale all_chords,
    generate_scale root scale_type = OK scale
    /\ generate_all_chords_for_scale scale = OK all_chords
    /\ List.length all_chords = 240%nat
    /\ skipn 210 all_chords = firstn 30 all_chords
    /\ List.length (filter consonant_entry all_chords) = 24%nat.
Proof.
  intros Hroot Htype.
  destruct (generated_scale_shape root scale_type Hroot Htype)
    as (scale & Hgen & Hlen & Hall & Hfirst & Hlast).
  exists scale, (flat_map (entries_on (items chord_formulas)) scale).
  split; [assumption|]. split; [now apply all_chords_canonical|].
  split; [rewrite (flat_map_block_length _ 30 entries_on_length), Hlen;
          reflexivity|].
  split.
  - change 210%nat with (30 * 7)%nat. change 30%nat with (30 * 1)%nat at 2.
    rewrite (flat_map_block_skipn _ 30 entries_on_length).
    rewrite (flat_map_block_firstn _ 30 entries_on_length).
    now rewrite Hfirst, Hlast.
  - clear Hgen Hall Hfirst Hlast.
    assert (forall l : list string,
               List.length (filter consonant_entry
                              (flat_map (entries_on (items chord_formulas)) l))
               = (3 * List.length l)%nat) as Hcount.
    { induction l as [|r l IH]; [reflexivity|].
      cbn [flat_map]. rewrite filter_app, length_app, IH.
      rewrite consonant_entries_on. cbn [List.length]. unfold entries_on.
      rewrite length_map. cbn. lia. }
    rewrite Hcount, Hlen. reflexivity.
Qed.

Lemma all_chords_of_generated_scale_witness :
  exists scale all_chords,
    generate_scale "B" "locrian" = OK scale
    /\ generate_all_chords_for_scale scale = OK all_chords
    /\ List.length all_chords = 240%nat
    /\ skipn 210 all_chords = firstn 30 all_chords
    /\ List.length (filter consonant_entry all_chords) = 24%nat.
Proof.
  apply (all_chords_of_generated_scale "B" "locrian"); cbn; tauto.
Defined.

(** ** Progressions, continued *)

Section ProgressionMore.

Context {A : Type}.
Implicit Types (chords progression : list A) (pattern : list Z).

Lemma getitem_In chords (i : Z) (c : A) : getitem chords i = OK c -> In c chords.
Proof.
  unfold getitem. destruct (_ && _); [|discriminate].
  destruct (nth_error _ _) eqn:E; [|discriminate].
  intros [= <-]. eapply nth_error_In. eassumption.
Qed.

Lemma getitem_mod chords (i : Z) :
  - Z.of_nat (List.length chords) <= i < Z.of_nat (List.length chords) ->
  getitem chords (i mod Z.of_nat (List.length chords)) = getitem chords i.
Proof.
  intros Hi. set (n := Z.of_nat (List.length chords)) in *.
  destruct (Z.ltb_spec i 0) as [Hneg|Hpos].
  - assert (i mod n = i + n) as ->.
    { rewrite <- (Z.mod_add i 1 n) by lia. rewrite Z.mod_small; lia. }
    unfold getitem. fold n.
    destruct (Z.ltb_spec (i + n) 0) as [?|_]; [lia|].
    destruct (Z.ltb_spec i 0) as [_|?]; [reflexivity|lia].
  - now rewrite Z.mod_small by lia.
Qed.

End ProgressionMore.

(** X13. A progression returned by [generate_progression] has one chord
    per pattern index, and each of them is one of the chords given,
    whatever the indices are (negative ones included). *)
Theorem generate_progression_members {A : Type}
    (chords progression : list A) (pattern : list Z) :
  generate_progression chords pattern = OK progression ->
  List.length progression = List.length pattern
  /\ Forall (fun c => In c chords) progression.
Proof.
  intros H. apply generate_progression_ok in H.
  induction H as [|i c pattern progression Hc _ [IHlen IHin]].
  - split; [reflexivity|constructor].
  - split; [cbn; now rewrite IHlen|].
    constructor; [|assumption]. eapply getitem_In. eassumption.
Qed.

Lemma generate_progression_members_witness :
  List.length ["V"; "I"; "vii"] = List.length [4; 0; -1]
  /\ Forall (fun c => In c ["I"; "ii"; "iii"; "IV"; "V"; "vi"; "vii"])
       ["V"; "I"; "vii"].
Proof.
  apply (generate_progression_members
           ["I"; "ii"; "iii"; "IV"; "V"; "vi"; "vii"] ["V"; "I"; "vii"]
           [4; 0; -1]).
  reflexivity.
Defined.

(** X14. The progression of two patterns written one after the other is
    the progression of the first followed by the progression of the second;
    it raises when either of them does. *)
Theorem generate_progression_app {A : Type}
    (chords : list A) (pattern1 pattern2 : list Z) :
  generate_progression chords (pattern1 ++ pattern2)
  = (progression1 <- generate_progression chords pattern1 ;;
     progression2 <- generate_progression chords pattern2 ;;
     OK (progression1 ++ progression2)).
Proof.
  induction pattern1 as [|i rest IH]; cbn [app generate_progression bind].
  - now destruct (generate_progression chords pattern2).
  - destruct (getitem chords i) as [c|e]; cbn [bind]; [|reflexivity].
    rewrite IH.
    destruct (generate_progression chords rest) as [cs|e]; cbn [bind];
      [|reflexivity].
    now destruct (generate_progression chords pattern2).
Qed.

(** X15. With every index in [-len(chords), len(chords)), an index and its
    remainder modulo [len(chords)] select the same chord: replacing each
    index [i] by [i % len(chords)] gives the same progression. *)
Theorem generate_progression_mod {A : Type}
    (chords : list A) (pattern : list Z) :
  Forall (fun i => - Z.of_nat (List.length chords) <= i
                   < Z.of_nat (List.length chords)) pattern ->
  generate_progression chords
    (map (fun i => i mod Z.of_nat (List.length chords)) pattern)
  = generate_progression chords pattern.
Proof.
  induction 1 as [|i rest Hi _ IH]; [reflexivity|].
  cbn [map generate_progression]. now rewrite getitem_mod, IH.
Qed.

Lemma generate_progression_mod_witness :
  generate_progression [60; 62; 64; 65; 67; 69; 71]
    (map (fun i => i mod Z.of_nat (List.length [60; 62; 64; 65; 67; 69; 71]))
       [-7; 3; -1])
  = generate_progression [60; 62; 64; 65; 67; 69; 71] [-7; 3; -1].
Proof.
  apply (generate_progression_mod [60; 62; 64; 65; 67; 69; 71] [-7; 3; -1]).
  repeat (constructor; [cbn; lia|]). constructor.
Defined.

(** ** Tracks *)

Lemma note_messages_length (midi_note : Z) :
  List.length (note_messages midi_note) = 2%nat.
Proof. reflexivity. Qed.

Lemma chord_track_loop_messages (chord : list Z) :
  forall track,
    chord_track_loop chord track
    = track ++ flat_map (fun note => note_messages (note + 60)) chord.
Proof.
  induction chord as [|note rest IH]; intros track; cbn [chord_track_loop flat_map].
  - now rewrite app_nil_r.
  - rewrite IH, <- !app_assoc. reflexivity.
Qed.

Lemma duration_app (t1 t2 : list Message) :
  duration (t1 ++ t2) = duration t1 + duration t2.
Proof.
  induction t1 as [|m t1 IH]; [reflexivity|].
  cbn [app]. unfold duration in *. cbn [fold_right]. rewrite IH. lia.
Qed.

Lemma duration_notes {X : Type} (f : X -> Z) (l : list X) :
  duration (flat_map (fun x => note_messages (f x)) l)
  = 480 * Z.of_nat (List.length l).
Proof.
  induction l as [|x l IH]; [reflexivity|].
  cbn [flat_map List.length]. rewrite duration_app, IH, Nat2Z.inj_succ.
  unfold duration, note_messages. cbn [fold_right msg_time]. lia.
Qed.

(** X16. For a chord returned by [generate_chord], the track
    [create_midi_for_chord] saves has two messages per formula offset, a
    note_on at time 0 followed by a note_off at time 480 for the same note;
    the note for offset [k] is the chord's pitch class plus 60; every note
    number lies in [60, 72) with velocity 64; the times add up to 480 ticks
    per tone. *)
Theorem create_midi_for_chord_generated
    (root : string) (formula chord : list Z) :
  generate_chord root formula = OK chord ->
  List.length (create_midi_for_chord chord) = (2 * List.length formula)%nat
  /\ Forall (fun m => 60 <= msg_note m < 72 /\ msg_velocity m = 64)
       (create_midi_for_chord chord)
  /\ duration (create_midi_for_chord chord)
     = 480 * Z.of_nat (List.length formula)
  /\ forall (k : nat) (pc : Z),
       nth_error chord k = Some pc ->
       nth_error (create_midi_for_chord chord) (2 * k)
       = Some (Build_Message note_on (pc + 60) 64 0)
       /\ nth_error (create_midi_for_chord chord) (2 * k + 1)
          = Some (Build_Message note_off (pc + 60) 64 480).
Proof.
  intros Hgen.
  assert (In root notes) as Hroot.
  { destruct (in_dec string_dec root notes) as [Hin|Hout]; [assumption|].
    rewrite generate_chord_unknown_root in Hgen by assumption. discriminate. }
  rewrite generate_chord_canonical in Hgen by assumption.
  injection Hgen as <-.
  unfold create_midi_for_chord. rewrite chord_track_loop_messages. cbn [app].
  set (msgs := fun note : Z => note_messages (note + 60)).
  assert (forall note, List.length (msgs note) = 2%nat) as Hblock
      by reflexivity.
  split.
  { rewrite (flat_map_block_length msgs 2 Hblock).
    unfold chord_at. now rewrite length_map. }
  split.
  { apply Forall_forall. intros m Hm.
    apply in_flat_map in Hm as (note & Hnote & Hm).
    pose proof (chord_at_range (pitch_class root) formula) as R.
    rewrite Forall_forall in R. specialize (R note Hnote).
    cbn in Hm. destruct Hm as [<-|[<-|[]]]; cbn; lia. }
  split.
  { unfold msgs. rewrite duration_notes. unfold chord_at.
    now rewrite length_map. }
  intros k pc Hk. split.
  - replace (2 * k)%nat with (2 * k + 0)%nat by lia.
    rewrite (flat_map_block_nth msgs 2 Hblock _ k 0 pc Hk) by lia.
    reflexivity.
  - rewrite (flat_map_block_nth msgs 2 Hblock _ k 1 pc Hk) by lia.
    reflexivity.
Qed.

Lemma create_midi_for_chord_generated_witness :
  List.length (create_midi_for_chord [11; 3; 6; 10])
  = (2 * List.length [0; 4; 7; 11])%nat
  /\ Forall (fun m => 60 <= msg_note m < 72 /\ msg_velocity m = 64)
       (create_midi_for_chord [11; 3; 6; 10])
  /\ duration (create_midi_for_chord [11; 3; 6; 10])
     = 480 * Z.of_nat (List.length [0; 4; 7; 11])
  /\ forall (k : nat) (pc : Z),
       nth_error [11; 3; 6; 10] k = Some pc ->
       nth_error (create_midi_for_chord [11; 3; 6; 10]) (2 * k)
       = Some (Build_Message note_on (pc + 60) 64 0)
       /\ nth_error (create_midi_for_chord [11; 3; 6; 10]) (2 * k + 1)
          = Some (Build_Message note_off (pc + 60) 64 480).
Proof.
  apply (create_midi_for_chord_generated "B" [0; 4; 7; 11] [11; 3; 6; 10]).
  reflexivity.
Defined.

Lemma note_to_midi_keys : keys note_to_midi = notes.
Proof. reflexivity. Qed.

Lemma note_to_midi_pitch_class (n : string) :
  In n notes -> lookup note_to_midi n = OK (pitch_class n).
Proof.
  intros Hn. rewrite note_to_midi_index by assumption.
  destruct (index_notes_In n Hn) as (p & Hidx & _).
  unfold pitch_class. now rewrite Hidx.
Qed.

Lemma scale_track_loop_cases (scale : list string) :
  forall track,
    (Forall (fun r => In r notes) scale
     /\ scale_track_loop scale track
        = OK (track
              ++ flat_map (fun n => note_messages (pitch_class n + 60)) scale))
    \/ (Exists (fun r => ~ In r notes) scale
        /\ scale_track_loop scale track = Raise KeyError).
Proof.
  induction scale as [|note rest IH]; intros track.
  - left. split; [constructor|]. cbn. now rewrite app_nil_r.
  - cbn [scale_track_loop].
    destruct (in_dec string_dec note notes) as [Hin|Hout].
    + rewrite note_to_midi_pitch_class by assumption. cbn [bind].
      match goal with
      | |- context [scale_track_loop rest ?t] => destruct (IH t) as [[Hall Hok]|[Hex Herr]]
      end.
      * left. split; [now constructor|].
        rewrite Hok. cbn [flat_map note_messages]. rewrite <- !app_assoc.
        reflexivity.
      * right. split; [now apply Exists_cons_tl|exact Herr].
    + right. split; [now apply Exists_cons_hd|].
      rewrite <- note_to_midi_keys in Hout.
      apply lookup_not_key in Hout. now rewrite Hout.
Qed.

(** X17. [create_midi_for_scale] raises exactly when some entry of the
    scale is not a key of [note_to_midi], that is not one of the note
    names, and the exception is then [KeyError]. *)
Theorem create_midi_for_scale_raises (scale : list string) :
  (create_midi_for_scale scale = Raise KeyError <->
   Exists (fun r => ~ In r notes) scale)
  /\ (forall e, create_midi_for_scale scale = Raise e -> e = KeyError).
Proof.
  unfold create_midi_for_scale.
  destruct (scale_track_loop_cases scale []) as [[Hall Hok]|[Hex Herr]].
  - rewrite Hok. split; [|discriminate].
    split; [discriminate|]. intros Hex. exfalso.
    apply Exists_exists in Hex as (r & Hr & Hnot).
    rewrite Forall_forall in Hall. now apply Hnot, Hall.
  - rewrite Herr. split; [tauto|congruence].
Qed.

(** X18. For a root among the note names and a registered scale type, the
    track [create_midi_for_scale] saves for the generated scale has 16
    messages with note numbers in [60, 72) and lasts 3840 ticks; the
    note_on of the eighth scale entry (message 14) has the same note number
    as the note_on of the root (message 0): the scale closes on the pitch
    it starts from, not an octave above. *)
Theorem create_midi_for_scale_generated (root scale_type : string) :
  In root notes -> In scale_type (keys scales) ->
  exists scale track p,
    generate_scale root scale_type = OK scale
    /\ index notes root = OK p
    /\ create_midi_for_scale scale = OK track
    /\ List.length track = 16%nat
    /\ Forall (fun m => 60 <= msg_note m < 72) track
    /\ duration track = 3840
    /\ nth_error track 0 = Some (Build_Message note_on (p + 60) 64 0)
    /\ nth_error track 14 = Some (Build_Message note_on (p + 60) 64 0).
Proof.
  intros Hroot Htype.
  destruct (generated_scale_shape root scale_type Hroot Htype)
    as (scale & Hgen & Hlen & Hall & Hfirst & Hlast).
  destruct (index_notes_In root Hroot) as (p & Hidx & Hp & _).
  set (msgs := fun n : string => note_messages (pitch_class n + 60)).
  assert (forall n, List.length (msgs n) = 2%nat) as Hblock by reflexivity.
  exists scale, (flat_map msgs scale), p.
  split; [assumption|]. split; [assumption|].
  split.
  { unfold create_midi_for_scale.
    destruct (scale_track_loop_cases scale []) as [[_ Hok]|[Hex _]];
      [exact Hok|].
    exfalso. apply Exists_exists in Hex as (r & Hr & Hnot).
    rewrite Forall_forall in Hall. now apply Hnot, Hall. }
  split; [now rewrite (flat_map_block_length msgs 2 Hblock), Hlen|].
  split.
  { apply Forall_forall. intros m Hm.
    apply in_flat_map in Hm as (n & Hn & Hm).
    rewrite Forall_forall in Hall.
    destruct (pitch_class_range n (Hall n Hn)) as [Hr _].
    cbn in Hm. destruct Hm as [<-|[<-|[]]]; cbn; lia. }
  split; [unfold msgs; now rewrite duration_notes, Hlen|].
  assert (pitch_class root = p) as Hpc
      by (unfold pitch_class; now rewrite Hidx).
  assert (nth_error scale 0 = Some root) as H0.
  { clear -Hfirst. destruct scale as [|x tl]; [discriminate|].
    cbn in Hfirst. now injection Hfirst as ->. }
  assert (nth_error scale 7 = Some root) as H7.
  { rewrite <- (Nat.add_0_r 7), <- nth_error_skipn. now rewrite Hlast. }
  split.
  - change 0%nat with (2 * 0 + 0)%nat.
    rewrite (flat_map_block_nth msgs 2 Hblock scale 0 0 root H0) by lia.
    unfold msgs. now rewrite Hpc.
  - change 14%nat with (2 * 7 + 0)%nat.
    rewrite (flat_map_block_nth msgs 2 Hblock scale 7 0 root H7) by lia.
    unfold msgs. now rewrite Hpc.
Qed.

Lemma create_midi_for_scale_generated_witness :
  exists scale track p,
    generate_scale "A" "natural_minor" = OK scale
    /\ index notes "A" = OK p
    /\ create_midi_for_scale scale = OK track
    /\ List.length track = 16%nat
    /\ Forall (fun m => 60 <= msg_note m < 72) track
    /\ duration track = 3840
    /\ nth_error track 0 = Some (Build_Message note_on (p + 60) 64 0)
    /\ nth_error track 14 = Some (Build_Message note_on (p + 60) 64 0).
Proof.
  apply (create_midi_for_scale_generated "A" "natural_minor"); cbn; tauto.
Defined.

Lemma progression_track_loop_chords (progression : list (list Z)) :
  forall track,
    progression_track_loop progression track
    = track ++ flat_map create_midi_for_chord progression.
Proof.
  induction progression as [|chord rest IH]; intros track;
    cbn [progression_track_loop flat_map].
  - now rewrite app_nil_r.
  - rewrite IH. unfold create_midi_for_chord.
    rewrite !chord_track_loop_messages, <- app_assoc. reflexivity.
Qed.

(** X19. For a progression whose tones all give a note number in 0..127,
    the track [create_midi_files] builds is the tracks of its chords one
    after the other, each as [create_midi_for_chord] would build it; it
    lasts 480 ticks per tone of the progression, and every note number in
    it lies in 0..127. *)
Theorem progression_track_chords
    (before after : list (list Z)) (chord : list Z) :
  Forall (Forall midi_tone) (before ++ chord :: after) ->
  progression_track (before ++ chord :: after)
  = progression_track before ++ create_midi_for_chord chord
      ++ progression_track after
  /\ duration (progression_track (before ++ chord :: after))
     = 480 * Z.of_nat (List.length (List.concat (before ++ chord :: after)))
  /\ Forall (fun m => 0 <= msg_note m <= 127)
       (progression_track (before ++ chord :: after)).
Proof.
  intros Htones.
  unfold progression_track. rewrite !progression_track_loop_chords.
  cbn [app]. split; [now rewrite flat_map_app|].
  revert Htones. generalize (before ++ chord :: after). intros l Htones.
  split.
  - clear Htones. induction l as [|c l IH]; [reflexivity|].
    cbn [flat_map List.concat]. rewrite duration_app, IH, length_app.
    unfold create_midi_for_chord. rewrite chord_track_loop_messages.
    cbn [app]. rewrite duration_notes. lia.
  - apply Forall_forall. intros m Hm.
    apply in_flat_map in Hm as (c & Hc & Hm).
    unfold create_midi_for_chord in Hm.
    rewrite chord_track_loop_messages in Hm. cbn [app] in Hm.
    apply in_flat_map in Hm as (tone & Htone & Hm).
    rewrite Forall_forall in Htones. specialize (Htones c Hc).
    rewrite Forall_forall in Htones. specialize (Htones tone Htone).
    unfold midi_tone in Htones.
    cbn in Hm. destruct Hm as [<-|[<-|[]]]; cbn; lia.
Qed.

Lemma progression_track_chords_witness :
  progression_track ([[0; 4; 7]] ++ [5; 9; 0] :: [[7; 11; 2]])
  = progression_track [[0; 4; 7]] ++ create_midi_for_chord [5; 9; 0]
      ++ progression_track [[7; 11; 2]]
  /\ duration (progression_track ([[0; 4; 7]] ++ [5; 9; 0] :: [[7; 11; 2]]))
     = 480 * Z.of_nat
               (List.length
                  (List.concat ([[0; 4; 7]] ++ [5; 9; 0] :: [[7; 11; 2]])))
  /\ Forall (fun m => 0 <= msg_note m <= 127)
       (progression_track ([[0; 4; 7]] ++ [5; 9; 0] :: [[7; 11; 2]])).
Proof.
  apply (progression_track_chords [[0; 4; 7]] [[7; 11; 2]] [5; 9; 0]).
  repeat (constructor; [repeat (constructor; [unfold midi_tone; lia|]);
                        constructor|]).
  constructor.
Defined.

(** ** The progression loop and the whole run *)

Section ProgressionLoop.

Variable slate : list (list Z).

Lemma generate_progression_raises_range (pattern : list Z) :
  raises (generate_progression slate pattern)
  <-> Exists (out_of_range slate) pattern.
Proof.
  rewrite generate_progression_raises, !Exists_exists.
  split; intros (i & Hi & H); exists i; (split; [assumption|]);
    now apply getitem_raises.
Qed.

Lemma progressions_loop_error (its : list (string * list Z)) (e : exn) :
  progressions_loop slate its = Raise e -> e = IndexError.
Proof.
  induction its as [|[name pattern] rest IH]; cbn [progressions_loop];
    [discriminate|].
  destruct (generate_progression slate pattern) as [pr|e'] eqn:Ep; cbn [bind].
  - destruct (progressions_loop slate rest) as [others|e'']; cbn [bind];
      [discriminate|].
    intros [= <-]. now apply IH.
  - intros [= <-]. eapply generate_progression_error. eassumption.
Qed.

Lemma progressions_loop_raises (its : list (string * list Z)) :
  raises (progressions_loop slate its) <->
  Exists (fun it => Exists (out_of_range slate) (snd it)) its.
Proof.
  induction its as [|[name pattern] rest IH]; cbn [progressions_loop].
  - split; [intros [e He]; discriminate | intros H; inversion H].
  - rewrite Exists_cons, <- IH. cbn [snd].
    rewrite <- generate_progression_raises_range.
    destruct (generate_progression slate pattern) as [pr|e]; cbn [bind].
    + destruct (progressions_loop slate rest) as [others|e]; cbn [bind].
      * split; [intros [e He]; discriminate|].
        intros [[e He]|[e He]]; discriminate.
      * split; [intros _; right|intros _]; eexists; reflexivity.
    + split; [intros _; left|intros _]; eexists; reflexivity.
Qed.


End ProgressionLoop.




(** X21. For every root among the note names and every registered scale
    type, [create_midi_files] raises [IndexError]: the slate has seven
    chords and the registered pattern "I-bVII-IV" asks for the chord at
    index 10. The script's loop over all notes and scale types therefore
    raises [IndexError] too, in its first call. *)
Theorem create_midi_files_raises (root_note scale_type : string) :
  In root_note notes -> In scale_type (keys scales) ->
  create_midi_files root_note scale_type = Raise IndexError
  /\ main = Raise IndexError.
Proof.
  intros Hroot Htype. split; [|vm_compute; reflexivity].
  destruct (first_seven_chords root_note scale_type Hroot Htype)
    as (scale & all_chords & Hscale & Hall & Hseven).
  unfold create_midi_files. rewrite Hscale. cbn [bind].
  rewrite Hall. cbn [bind].
  assert (List.length (slate_of all_chords) = 7%nat) as Hlen
      by (unfold slate_of; rewrite Hseven; reflexivity).
  assert (raises (progressions_loop (slate_of all_chords) (items progressions)))
    as [e He].
  { apply progressions_loop_raises, Exists_exists.
    exists ("I-bVII-IV", [0; 10; 3]). split; [cbn; tauto|].
    cbn [snd]. apply Exists_cons_tl, Exists_cons_hd.
    unfold out_of_range. rewrite Hlen. lia. }
  rewrite He. cbn [bind]. f_equal.
  eapply progressions_loop_error. eassumption.
Qed.

Lemma create_midi_files_raises_witness :
  create_midi_files "G#" "phrygian" = Raise IndexError
  /\ main = Raise IndexError.
Proof.
  apply (create_midi_files_raises "G#" "phrygian"); cbn; tauto.
Defined.

(** ** The note dict and transposed scales *)

(** X22. The dict [note_to_midi] has the note names as its keys, in table
    order, and maps each name to its position in [notes]: looking a name up
    gives what [notes.index] gives, and a string that is not a note name
    raises [KeyError] where [notes.index] raises [ValueError]. *)
Theorem note_to_midi_lookup (n : string) :
  keys note_to_midi = notes
  /\ lookup note_to_midi n
     = match index notes n with
       | OK p => OK p
       | Raise _ => Raise KeyError
       end.
Proof.
  split; [reflexivity|].
  destruct (in_dec string_dec n notes) as [Hin|Hout].
  - rewrite note_to_midi_index by assumption.
    now destruct (index_notes_In n Hin) as (p & -> & _).
  - pose proof Hout as Hout'. apply (index_from_not_in notes n 0) in Hout'.
    unfold index. rewrite Hout'.
    rewrite <- note_to_midi_keys in Hout. now apply lookup_not_key.
Qed.

Lemma cursors_range (steps : list Z) :
  forall cur, Forall (fun c => 0 <= c < 12) (cursors cur steps).
Proof.
  induction steps as [|s rest IH]; intros cur; cbn [cursors];
    constructor; [apply Z.mod_pos_bound; lia|apply IH].
Qed.

Lemma cursors_shift (steps : list Z) :
  forall c k,
    cursors ((c + k) mod 12) steps
    = map (fun x => (x + k) mod 12) (cursors c steps).
Proof.
  induction steps as [|s rest IH]; intros c k; cbn [cursors map];
    [reflexivity|].
  assert (((c + k) mod 12 + s) mod 12 = ((c + s) mod 12 + k) mod 12) as E.
  { rewrite !Z.add_mod_idemp_l by lia. f_equal. lia. }
  rewrite E at 1. f_equal. rewrite E. apply IH.
Qed.

(** X23. Moving the root up by [k] semitones moves the whole scale up by
    [k] semitones: the scale of the same type on the note [k] semitones
    above [root] holds, entry by entry, the note [k] semitones above the
    entry of the scale on [root] (pitch classes modulo 12). *)
Theorem generate_scale_transpose
    (root scale_type : string) (scale : list string) (p k : Z) :
  index notes root = OK p ->
  generate_scale root scale_type = OK scale ->
  exists root',
    getitem notes ((p + k) mod 12) = OK root'
    /\ generate_scale root' scale_type
       = OK (map (fun n => note_at ((pitch_class n + k) mod 12)) scale).
Proof.
  intros Hidx Hgen.
  assert (0 <= (p + k) mod 12 < 12) as Hr by (apply Z.mod_pos_bound; lia).
  exists (note_at ((p + k) mod 12)). split; [now apply getitem_notes|].
  unfold generate_scale in Hgen.
  destruct (lookup scales scale_type) as [steps|e] eqn:Hsteps; [|discriminate].
  cbn [bind] in Hgen. rewrite Hidx in Hgen. cbn [bind] in Hgen.
  rewrite scale_loop_cursors in Hgen. injection Hgen as <-.
  rewrite (generate_scale_unfold _ scale_type steps ((p + k) mod 12) Hsteps)
    by now apply index_note_at.
  cbn [app map]. rewrite cursors_shift, !map_map. f_equal. f_equal.
  - unfold pitch_class. now rewrite Hidx.
  - apply map_ext_in. intros c Hc.
    pose proof (cursors_range steps p) as R. rewrite Forall_forall in R.
    unfold pitch_class. now rewrite index_note_at by auto.
Qed.

Lemma generate_scale_transpose_witness :
  exists root',
    getitem notes ((0 + 7) mod 12) = OK root'
    /\ generate_scale root' "major"
       = OK (map (fun n => note_at ((pitch_class n + 7) mod 12))
               ["C"; "D"; "E"; "F"; "G"; "A"; "B"; "C"]).
Proof.
  apply (generate_scale_transpose "C" "major"
           ["C"; "D"; "E"; "F"; "G"; "A"; "B"; "C"] 0 7); reflexivity.
Defined.
